(** * gad: the download front end, its directory cache and its task queue

  A shallow embedding of the Go sources of gad
  (pkg/download's directory cache, cmd/gad/main.go) together with the
  parts of the download core that the design document specifies.

  Conventions.
  - A Go [map[string]struct{}] is a [gmap string ()]; its key set is
    [dom].
  - A Go [(T, error)] result is a [result T]: [Ok v] for [(v, nil)],
    [Err e] for [(nil, e)].
  - Calls that leave the process (the file system, the scraper, the
    browser) are inputs of the model: a file-system value, or a record
    of the outcomes the calls had. *)

From stdpp Require Import base gmap strings list fin_maps.

Open Scope string_scope.
Open Scope nat_scope.
#[local] Set Warnings "-clear-no-such-hyp".

(** ** The operating-system boundary *)

Module Os.

(** The errors [os.ReadDir] reports, by the errno that causes them. *)
Inductive Errno : Type :=
| ENOENT   (* no such file or directory *)
| ENOTDIR  (* not a directory *)
| EACCES   (* permission denied *)
| EIO.     (* input/output error *)

(** [os.IsNotExist]: true of the "does not exist" error only. *)
Definition IsNotExist (e : Errno) : bool :=
  match e with
  | ENOENT => true
  | _ => false
  end.

Inductive result (A : Type) : Type :=
| Ok (a : A)
| Err (e : Errno).
Arguments Ok {A} a.
Arguments Err {A} e.

(** [os.DirEntry], as far as the cache reads it. *)
Record DirEntry : Type := mkEntry { Name : string; IsDir : bool }.

(** What a path names. *)
Inductive Node : Type :=
| Regular                              (* a plain file *)
| Directory (entries : list DirEntry)  (* a readable directory *)
| Locked                               (* a directory we may not read *)
| Damaged.                             (* reading it fails in the device *)

(** A file system, below, is a [gmap string Node]: it maps the paths
    that exist to what they name. *)

(** [os.ReadDir dir]. *)
Definition ReadDir (fs : gmap string Node) (dir : string)
  : result (list DirEntry) :=
  match fs !! dir with
  | None => Err ENOENT
  | Some Regular => Err ENOTDIR
  | Some (Directory entries) => Ok entries
  | Some Locked => Err EACCES
  | Some Damaged => Err EIO
  end.

End Os.

(** ** pkg/download: the directory cache *)

Module DirCache.
Import Os.

(** [sync.RWMutex], reduced to the number of readers inside; the
    package never takes the write lock. *)
Record RWMutex : Type := mkMutex { readerCount : nat }.

Record DirectoryCache : Type := mkCache {
  mu : RWMutex;
  files : gmap string ()
}.

Definition RLock (c : DirectoryCache) : DirectoryCache :=
  {| mu := {| readerCount := S (readerCount (mu c)) |}; files := files c |}.

Definition RUnlock (c : DirectoryCache) : DirectoryCache :=
  {| mu := {| readerCount := Nat.pred (readerCount (mu c)) |};
     files := files c |}.

(** The body of the [for _, entry := range entries] loop. *)
Definition add_entry (m : gmap string ()) (entry : DirEntry) : gmap string () :=
  if negb (IsDir entry) then <[Name entry := ()]> m else m.

Definition NewDirectoryCache (fs : gmap string Node) (dir : string)
  : result DirectoryCache :=
  let cache := {| mu := {| readerCount := 0 |}; files := ∅ |} in
  match ReadDir fs dir with
  | Err err => if IsNotExist err then Ok cache else Err err
  | Ok entries =>
      Ok {| mu := mu cache; files := foldl add_entry (files cache) entries |}
  end.

(** [_, ok := c.files[key]] *)
Definition has (c : DirectoryCache) (key : string) : bool :=
  bool_decide (is_Some (files c !! key)).

(** [CheckIfEpisodeExists] returns its answer and the cache as it
    leaves it: the read lock is taken on entry and released by the
    deferred [RUnlock]. *)
Definition CheckIfEpisodeExists (c : DirectoryCache) (name : string)
  : bool * DirectoryCache :=
  let c1 := RLock c in
  let answer :=
    if has c1 (name +:+ ".mp4") then true
    else if has c1 (name +:+ ".ts") then true
    else if has c1 name then true
    else false in
  (answer, RUnlock c1).

(** *** Concurrent readers

    A reader is an execution of [CheckIfEpisodeExists]; its program
    counter says which statement is next. Several readers share one
    cache, and a schedule picks who moves. *)
Inductive Pc : Type :=
| AtRLock
| AtMp4
| AtTs
| AtBare
| AtRUnlock (answer : bool)
| Returned (answer : bool).

Record Reader : Type := mkReader { query : string; pc : Pc }.

Definition step (c : DirectoryCache) (r : Reader) : DirectoryCache * Reader :=
  let goto p := {| query := query r; pc := p |} in
  match pc r with
  | AtRLock => (RLock c, goto AtMp4)
  | AtMp4 =>
      (c, goto (if has c (query r +:+ ".mp4") then AtRUnlock true else AtTs))
  | AtTs =>
      (c, goto (if has c (query r +:+ ".ts") then AtRUnlock true else AtBare))
  | AtBare =>
      (c, goto (AtRUnlock (has c (query r))))
  | AtRUnlock answer => (RUnlock c, goto (Returned answer))
  | Returned _ => (c, r)
  end.

(** [schedule] lists, move by move, the index of the reader that runs;
    an index outside the pool moves nobody. *)
Fixpoint interleave (schedule : list nat) (c : DirectoryCache)
         (pool : list Reader) : DirectoryCache * list Reader :=
  match schedule with
  | [] => (c, pool)
  | i :: rest =>
      match pool !! i with
      | None => interleave rest c pool
      | Some r =>
          let '(c', r') := step c r in
          interleave rest c' (<[i := r']> pool)
      end
  end.

(** One call after the other on the same cache. *)
Fixpoint check_all (c : DirectoryCache) (names : list string)
  : list bool * DirectoryCache :=
  match names with
  | [] => ([], c)
  | n :: rest =>
      let '(b, c1) := CheckIfEpisodeExists c n in
      let '(bs, c2) := check_all c1 rest in
      (b :: bs, c2)
  end.

(** *** What the design document calls the index *)

(** The filenames observed in the directory: the names of its entries
    that are files. Nothing is observed where the directory cannot be
    read. *)
Definition filenames (fs : gmap string Node) (dir : string) : list string :=
  match ReadDir fs dir with
  | Ok entries => Name <$> filter (λ e, IsDir e = false) entries
  | Err _ => []
  end.

(** The names under which a job's output may be on disk, in the order
    they are tried. *)
Definition variants (name : string) : list string :=
  [name +:+ ".mp4"; name +:+ ".ts"; name].

(** [contains] in the design document's words: true on the first
    variant found in the indexed set. *)
Definition contains (indexed : gset string) (name : string) : bool :=
  match List.find (λ v, bool_decide (v ∈ indexed)) (variants name) with
  | Some _ => true
  | None => false
  end.

(** *** A download directory to compute on

    Two finished episodes, one raw-segment file, and a subdirectory
    that carries an episode's name. *)
Definition sample_entries : list DirEntry :=
  [ {| Name := "Show - S01E01 - GerDub.mp4"; IsDir := false |};
    {| Name := "Show - S01E02 - GerDub.ts"; IsDir := false |};
    {| Name := "Show - S01E03 - GerDub"; IsDir := false |};
    {| Name := "Show - S01E04 - GerDub.mp4"; IsDir := true |} ].

Definition sample_fs : gmap string Node :=
  {[ "downloads" := Directory sample_entries; "notes.txt" := Regular;
     "vault" := Locked ]}.

Definition sample_cache : DirectoryCache :=
  {| mu := {| readerCount := 0 |};
     files := foldl add_entry ∅ sample_entries |}.

End DirCache.

(** ** Go channels *)

Module Chan.

(** A buffered channel: the values sent and not yet received, oldest
    first, the capacity given to [make], and whether [close] was
    called. *)
Record chan (A : Type) : Type := mkChan {
  buf : list A;
  cap : nat;
  closed : bool
}.
Arguments mkChan {A} buf cap closed.
Arguments buf {A} c.
Arguments cap {A} c.
Arguments closed {A} c.

(** [make(chan A, n)] *)
Definition make {A : Type} (n : nat) : chan A :=
  {| buf := []; cap := n; closed := false |}.

(** What an operation on a channel does to the goroutine that runs it. *)
Inductive outcome (R : Type) : Type :=
| Proceeds (r : R)   (* the operation completes *)
| Blocks             (* the goroutine is suspended, nothing changes *)
| Panics.            (* the runtime panics *)
Arguments Proceeds {R} r.
Arguments Blocks {R}.
Arguments Panics {R}.

(** [c <- v] *)
Definition send {A : Type} (c : chan A) (v : A) : outcome (chan A) :=
  if closed c then Panics
  else if (length (buf c) <? cap c)%nat
       then Proceeds {| buf := buf c ++ [v]; cap := cap c; closed := closed c |}
       else Blocks.

(** [v, ok := <-c]; [None] is the [ok = false] of a closed and drained
    channel. *)
Definition recv {A : Type} (c : chan A) : outcome (option A * chan A) :=
  match buf c with
  | v :: rest =>
      Proceeds (Some v, {| buf := rest; cap := cap c; closed := closed c |})
  | [] => if closed c then Proceeds (None, c) else Blocks
  end.

(** [close(c)] *)
Definition close {A : Type} (c : chan A) : outcome (chan A) :=
  if closed c then Panics
  else Proceeds {| buf := buf c; cap := cap c; closed := true |}.

End Chan.

(** ** cmd/gad: the entry point *)

Module Main.
Import Chan.

(** A Go [error] that is not nil, by its message. *)
Definition error : Type := string.

(** [cli.Args], the fields [main] reads. *)
Record Args : Type := mkArgs {
  Url : string;
  Extractor : string;
  Debug : bool;
  Browser : bool;
  SkipExisting : bool;
  ConcurrentDownloads : Z;
  LimitRate : string
}.

(** A call that returns [(pointer, error)]: an error, a nil pointer
    without error, or a value. *)
Inductive found : Type :=
| WithError (err : error)
| Nil
| Value.

(** The outcomes of the calls [main] makes outside this file, in one
    run; [None] is a nil error. *)
Record Calls : Type := mkCalls {
  Execute : option error;            (* rootCmd.Execute() *)
  GetDataDir : option error;         (* dirs.GetDataDir() *)
  GetSaveDirectory : option error;   (* dirs.GetSaveDirectory("") *)
  ParseRateLimit : option error;     (* cli.ParseRateLimit(args.LimitRate) *)
  AutoDownload : option error;       (* ff.AutoDownload(ctx, assetDownloader) *)
  GetDownloader : found;             (* downloaders.GetDownloader(args.Url) *)
  Get : option error;                (* cm.Get(ctx, !args.Browser, args.Debug) *)
  GetSeriesInfo : option error;      (* dl.GetSeriesInfo(scrapeCtx) *)
  Download : option error;           (* dl.Download(scrapeCtx, req, settings, taskChan) *)
  managerErr : option error;         (* the variable, when [return managerErr] reads it *)
  ExtractVideoUrl : found;           (* extractors.ExtractVideoUrl(ctx, args.Url, "", "") *)
  DownloadToFile : option error      (* d.DownloadToFile(ctx, task) *)
}.

(** [handleSeriesDownload]: the error it returns, [None] for nil. The
    deferred [close(taskChan); wg.Wait()] runs after the returned value
    is fixed and does not assign it. *)
Definition handleSeriesDownload (w : Calls) (args : Args) : option error :=
  match GetDownloader w with
  | WithError err => Some err
  | Nil => Some "no downloader supports this URL"
  | Value =>
      match Get w with
      | Some err => Some err
      | None =>
          match GetSeriesInfo w with
          | Some err => Some err
          | None =>
              match Download w with
              | Some err => Some err
              | None => managerErr w
              end
          end
      end
  end.

(** [handleSingleDownload] *)
Definition handleSingleDownload (w : Calls) (args : Args) : option error :=
  match ExtractVideoUrl w with
  | WithError err => Some err
  | Nil => Some "no extractor supported this URL"
  | Value =>
      match DownloadToFile w with
      | Some err => Some err
      | None => None
      end
  end.

(** The "Main work" part of [main]: the exit status of the process.
    [os.Exit(n)] ends it with status [n]; returning from [main] ends it
    with status 0. *)
Definition main_work (w : Calls) (args : Args) : Z :=
  if negb (String.eqb (Url args) "") then
    if negb (String.eqb (Extractor args) "") then
      match handleSingleDownload w args with
      | Some err => 1      (* os.Exit(1) *)
      | None => 0          (* os.Exit(0) *)
      end
    else
      match handleSeriesDownload w args with
      | Some err => 0      (* slog.Error(...), then main returns *)
      | None => 0          (* main returns *)
      end
  else 1.                  (* os.Exit(1) *)

(** [main]: the exit status of the process. *)
Definition main (w : Calls) (args : Args) : Z :=
  match Execute w with
  | Some err => 1
  | None =>
  match GetDataDir w with
  | Some err => 1
  | None =>
  match GetSaveDirectory w with
  | Some err => 1
  | None =>
  match ParseRateLimit w with
  | Some err => 1
  | None =>
  match AutoDownload w with
  | Some err => 1
  | None => main_work w args
  end end end end end.

(** *** The task queue of [handleSeriesDownload] *)

(** [downloaders.DownloadTaskWrapper], the fields the feeder reads. *)
Record DownloadTaskWrapper : Type := mkWrapper {
  tw_Url : string;
  tw_Referer : string;
  tw_Lang : string;
  tw_Episode : string
}.

(** [download.ManagerTask] *)
Record ManagerTask : Type := mkTask {
  DownloadUrl : string;
  Referer : string;
  VideoType : string;
  EpisodeInfo : string
}.

(** [taskChan := make(chan *downloaders.DownloadTaskWrapper, 50)] *)
Definition taskChan : chan DownloadTaskWrapper := make 50.

(** The download manager as the feeder sees it: the tasks handed to
    [manager.Submit], oldest first, and whether [manager.Close] was
    called. *)
Record Manager : Type := mkManager {
  submitted : list ManagerTask;
  manager_closed : bool
}.

Record Queue : Type := mkQueue {
  tasks : chan DownloadTaskWrapper;   (* taskChan *)
  manager : Manager;
  feeder_done : bool                  (* the feeder goroutine has returned *)
}.

Definition start : Queue :=
  {| tasks := taskChan;
     manager := {| submitted := []; manager_closed := false |};
     feeder_done := false |}.

(** The moves of the goroutines around [taskChan]. *)
Inductive Move : Type :=
| Produce (tw : DownloadTaskWrapper)  (* [taskChan <- tw] inside dl.Download *)
| Feed                                (* one turn of [for tw := range taskChan] *)
| CloseTasks.                         (* the deferred [close(taskChan)] *)

Definition move (q : Queue) (m : Move) : outcome Queue :=
  match m with
  | Produce tw =>
      match send (tasks q) tw with
      | Proceeds c =>
          Proceeds {| tasks := c; manager := manager q;
                      feeder_done := feeder_done q |}
      | Blocks => Blocks
      | Panics => Panics
      end
  | Feed =>
      if feeder_done q then Blocks
      else
        match recv (tasks q) with
        | Proceeds (Some tw, c) =>
            Proceeds
              {| tasks := c;
                 manager :=
                   {| submitted :=
                        submitted (manager q)
                        ++ [{| DownloadUrl := tw_Url tw;
                               Referer := tw_Referer tw;
                               VideoType := tw_Lang tw;
                               EpisodeInfo := tw_Episode tw |}];
                      manager_closed := manager_closed (manager q) |};
                 feeder_done := false |}
        | Proceeds (None, c) =>
            Proceeds
              {| tasks := c;
                 manager := {| submitted := submitted (manager q);
                               manager_closed := true |};
                 feeder_done := true |}
        | Blocks => Blocks
        | Panics => Panics
        end
  | CloseTasks =>
      match close (tasks q) with
      | Proceeds c =>
          Proceeds {| tasks := c; manager := manager q;
                      feeder_done := feeder_done q |}
      | Blocks => Blocks
      | Panics => Panics
      end
  end.

(** The queue after a sequence of moves, in any interleaving of the
    goroutines: a move that blocks leaves the queue as it is (the
    goroutine waits and may try again), and so does one that panics. *)
Fixpoint play (q : Queue) (moves : list Move) : Queue :=
  match moves with
  | [] => q
  | m :: rest =>
      match move q m with
      | Proceeds q' => play q' rest
      | Blocks | Panics => play q rest
      end
  end.

(** *** Runs to compute on *)

Definition series_args : Args :=
  {| Url := "https://aniworld.to/anime/stream/example"; Extractor := "";
     Debug := false; Browser := false; SkipExisting := true;
     ConcurrentDownloads := 5; LimitRate := "inf" |}.

Definition single_args : Args :=
  {| Url := "https://vidoza.net/embed-example.html"; Extractor := "vidoza";
     Debug := false; Browser := false; SkipExisting := true;
     ConcurrentDownloads := 5; LimitRate := "inf" |}.

(** Every call succeeds. *)
Definition all_well : Calls :=
  {| Execute := None; GetDataDir := None; GetSaveDirectory := None;
     ParseRateLimit := None; AutoDownload := None; GetDownloader := Value;
     Get := None; GetSeriesInfo := None; Download := None;
     managerErr := None; ExtractVideoUrl := Value; DownloadToFile := None |}.

(** The scrape fails. *)
Definition scrape_fails : Calls :=
  {| Execute := None; GetDataDir := None; GetSaveDirectory := None;
     ParseRateLimit := None; AutoDownload := None; GetDownloader := Value;
     Get := None; GetSeriesInfo := None;
     Download := Some "context canceled";
     managerErr := None; ExtractVideoUrl := Value; DownloadToFile := None |}.

(** The manager reports a failure. *)
Definition manager_fails : Calls :=
  {| Execute := None; GetDataDir := None; GetSaveDirectory := None;
     ParseRateLimit := None; AutoDownload := None; GetDownloader := Value;
     Get := None; GetSeriesInfo := None; Download := None;
     managerErr := Some "download failed";
     ExtractVideoUrl := Value; DownloadToFile := None |}.

(** The single download fails. *)
Definition download_fails : Calls :=
  {| Execute := None; GetDataDir := None; GetSaveDirectory := None;
     ParseRateLimit := None; AutoDownload := None; GetDownloader := Value;
     Get := None; GetSeriesInfo := None; Download := None;
     managerErr := None; ExtractVideoUrl := Value;
     DownloadToFile := Some "download failed" |}.

End Main.

(** ** The download core, from the design document

    The cadence guard, the single-job executor and the scheduler are
    specified in the design document (sections 4.3 to 4.5 and 5); their
    code lives in pkg/download and is not part of this development. *)

Module Cadence.

(** Modelled from the spec: the CadenceState of section 3, whose code
    is missing: the requests counted since the last pause, the
    threshold, and the length of the pause. *)
Record CadenceState : Type := mkCadence {
  counter : nat;
  threshold : nat;
  pause : nat
}.

(** Modelled from the spec: "when the counter reaches the configured
    threshold", the test the missing guard makes on entry. *)
Definition reached (s : CadenceState) : bool := threshold s <=? counter s.

(** Modelled from the spec: "sleeps for the configured pause duration",
    on the clock the caller reads; the missing guard's sleep. *)
Definition sleep (s : CadenceState) (now : nat) : nat := now + pause s.

(** Modelled from the spec: "then resets the counter to zero", in the
    missing guard. *)
Definition reset (s : CadenceState) : CadenceState :=
  {| counter := 0; threshold := threshold s; pause := pause s |}.

(** Modelled from the spec: "increments the shared request counter", in
    the missing guard. *)
Definition increment (s : CadenceState) : CadenceState :=
  {| counter := S (counter s); threshold := threshold s; pause := pause s |}.

(** Modelled from the spec: [beforeRequest] of section 4.3, whose code
    is missing. One call is one atomic step on the shared state: a call
    that finds the counter at the threshold sleeps for the pause and
    resets the counter, and every call counts its own request. The
    order is the one section 8 fixes: "threshold=4 ⇒ the 5th
    beforeRequest call blocks until the pause elapses" and "at least one
    pause [...] occurs after every T requests". The call returns the
    state it leaves and the time at which it returns. *)
Definition beforeRequest (s : CadenceState) (now : nat) : CadenceState * nat :=
  let '(s1, woke) :=
    if reached s then (reset s, sleep s now) else (s, now) in
  (increment s1, woke).

(** Modelled from the spec: a sequence of calls of the missing guard,
    as in the test of section 8: [n] calls, each issued when the one
    before has returned; the state left, the time of the last return,
    and the return time of every call, first call first. *)
Fixpoint requests (n : nat) (s : CadenceState) (now : nat)
  : CadenceState * nat * list nat :=
  match n with
  | 0 => (s, now, [])
  | S n' =>
      let '(s1, t1) := beforeRequest s now in
      let '(s2, t2, returns) := requests n' s1 t1 in
      (s2, t2, t1 :: returns)
  end.

End Cadence.

Module Executor.

(** Modelled from the spec: the Job of section 3 (code missing), with
    the logical name the Existing-Output Index is asked about. *)
Record Job : Type := mkJob {
  source : string;
  referer : string;
  name : string;
  output : string;
  skipIfExists : bool;
  retryBudget : nat
}.

(** Modelled from the spec: what the remote does in one attempt, by the
    failure classes of section 4.4 step 2c (code missing). [chunks] are
    the parts of the body that arrived, in order, before the attempt
    ended. *)
Inductive Fetch : Type :=
| Body (chunks : list string) (segmented : bool)
| Transient (reason : string) (chunks : list string)
| Permanent (reason : string)
| Cancelled (chunks : list string).

(** Modelled from the spec: the collaborators of the missing executor:
    the remote, attempt by attempt; the remux tool, which fails or
    yields the repackaged content (section 6); where the temporary
    file of an output path lives; whether overwriting is permitted; the
    names in the Existing-Output Index. *)
Record World : Type := mkWorld {
  fetch : nat → Fetch;
  remux : string → option string;
  temp_of : string → string;
  overwrite : bool;
  indexed : gset string
}.

(** Modelled from the spec: the outcomes of [execute] (section 4.4) and
    the distinguished cancellation of section 7. *)
Inductive Outcome : Type :=
| Completed
| Skipped
| Failed (reason : string)
| Stopped.

(** Modelled from the spec: the disk operations section 4.4 names
    (stream into a temporary file, remux it, rename it, delete it); the
    executor's code is missing. *)
Inductive FileOp : Type :=
| Create (path : string)
| Append (path : string) (chunk : string)
| Replace (path : string) (content : string)
| Rename (from to : string)
| Remove (path : string).

(** Modelled from the spec: the effect of those operations on the disk
    (the executor's code is missing); a disk maps the paths of the
    files that exist to their content, and "atomically rename" is one
    step. *)
Definition apply_op (disk : gmap string string) (op : FileOp)
  : gmap string string :=
  match op with
  | Create p => <[p := ""]> disk
  | Append p chunk => <[p := default "" (disk !! p) +:+ chunk]> disk
  | Replace p content => <[p := content]> disk
  | Rename from to =>
      match disk !! from with
      | Some content => <[to := content]> (delete from disk)
      | None => disk
      end
  | Remove p => delete p disk
  end.

(** Modelled from the spec: what the missing executor acts on, for the
    properties of section 8: the disk, every disk there has been
    (newest first, the present one included), and the fetches issued. *)
Record State : Type := mkState {
  disk : gmap string string;
  history : list (gmap string string);
  fetches : nat
}.

(** Modelled from the spec: the state before a job (executor code
    missing). *)
Definition begin (disk0 : gmap string string) : State :=
  {| disk := disk0; history := [disk0]; fetches := 0 |}.

(** Modelled from the spec: one disk operation of the missing
    executor, recorded in the history. *)
Definition perform (op : FileOp) (st : State) : State :=
  let disk' := apply_op (disk st) op in
  {| disk := disk'; history := disk' :: history st; fetches := fetches st |}.

(** Modelled from the spec: "issue the remote fetch" of step 2b, counted
    (executor code missing). *)
Definition issue_fetch (st : State) : State :=
  {| disk := disk st; history := history st; fetches := S (fetches st) |}.

(** Modelled from the spec: step 2b, "stream the body [...] into a
    temporary file": the file is opened empty and grows chunk by
    chunk. *)
Definition stream (tmp : string) (chunks : list string) (st : State) : State :=
  foldl (λ st chunk, perform (Append tmp chunk) st) (perform (Create tmp) st)
        chunks.

(** Modelled from the spec: how one attempt of the missing executor
    ends: success (2e), a transient failure to retry (2c, 2d), a
    permanent failure (2c), cancellation. *)
Inductive Attempt : Type :=
| Succeeded
| Retry (reason : string)
| GiveUp (reason : string)
| Abandon.

(** Modelled from the spec: step 2e, "atomically rename the temporary
    file to the job's final output path, overwriting only if explicitly
    permitted"; with an output in the way and no permission the job
    fails and the output stays. *)
Definition place (w : World) (j : Job) (st : State) : Attempt * State :=
  if bool_decide (is_Some (disk st !! output j)) && negb (overwrite w)
  then (GiveUp "output exists", st)
  else (Succeeded, perform (Rename (temp_of w (output j)) (output j)) st).

(** Modelled from the spec: one turn of step 2 of section 4.4 (b to e),
    attempt number [k]; the executor's code is missing. The pacing of
    steps 2a and 2c (cadence pause, rate governor, backoff) delays the
    attempt and is not part of this model. *)
Definition attempt (w : World) (j : Job) (k : nat) (st : State)
  : Attempt * State :=
  let tmp := temp_of w (output j) in
  let st := issue_fetch st in
  match fetch w k with
  | Body chunks segmented =>
      let st := stream tmp chunks st in
      if segmented then
        match remux w (foldl String.append "" chunks) with
        | Some content => place w j (perform (Replace tmp content) st)
        | None => (Retry "remux failed", st)
        end
      else place w j st
  | Transient reason chunks => (Retry reason, stream tmp chunks st)
  | Permanent reason => (GiveUp reason, st)
  | Cancelled chunks => (Abandon, stream tmp chunks st)
  end.

(** Modelled from the spec: steps 2 and 3 of section 4.4 with [left]
    attempts to go, the next one being number [k]; [last] is the reason
    of the latest failure. Every exit but success deletes the temporary
    file. *)
Fixpoint attempts (w : World) (j : Job) (left k : nat) (last : string)
         (st : State) : Outcome * State :=
  let tmp := temp_of w (output j) in
  match left with
  | 0 => (Failed last, perform (Remove tmp) st)
  | S left' =>
      match attempt w j k st with
      | (Succeeded, st') => (Completed, st')
      | (Retry reason, st') => attempts w j left' (S k) reason st'
      | (GiveUp reason, st') => (Failed reason, perform (Remove tmp) st')
      | (Abandon, st') => (Stopped, perform (Remove tmp) st')
      end
  end.

(** Modelled from the spec: [execute] of section 4.4, whose code is
    missing: step 1 skips a job the index knows, else up to
    [retryBudget + 1] attempts are made. *)
Definition execute (w : World) (j : Job) (st : State) : Outcome * State :=
  if skipIfExists j && DirCache.contains (indexed w) (name j)
  then (Skipped, st)
  else attempts w j (S (retryBudget j)) 0 "" st.

(** Modelled from the spec: the content a successful attempt of the
    missing executor leaves at the output path: the body, remuxed if it
    is segmented (step 2d). *)
Definition payload (w : World) (f : Fetch) : option string :=
  match f with
  | Body chunks false => Some (foldl String.append "" chunks)
  | Body chunks true => remux w (foldl String.append "" chunks)
  | _ => None
  end.

(** Modelled from the spec: "a fully-formed file" (section 3) of the
    missing executor: [content] is the whole result of some attempt. *)
Definition fully_formed (w : World) (content : string) : Prop :=
  ∃ k, payload w (fetch w k) = Some content.

(** Modelled from the spec: the invariant of section 3 for the missing
    executor. The output path of [j] holds no partial file in [snap]: it
    holds what it held on [disk0], before the job, or the whole result
    of an attempt. *)
Definition settled (w : World) (j : Job) (disk0 snap : gmap string string)
  : Prop :=
  snap !! output j = disk0 !! output j
  ∨ ∃ content, snap !! output j = Some content ∧ fully_formed w content.

(** Modelled from the spec: the missing executor before step 2e: until
    the rename, the output path is as the job found it. *)
Definition untouched (w : World) (j : Job) (disk0 : gmap string string)
           (st : State) : Prop :=
  Forall (settled w j disk0) (history st)
  ∧ disk st !! output j = disk0 !! output j.

(** Modelled from the spec: the missing executor after step 2e: the
    output path holds a whole result, and the temporary file is gone. *)
Definition placed (w : World) (j : Job) (disk0 : gmap string string)
           (st : State) : Prop :=
  Forall (settled w j disk0) (history st)
  ∧ ∃ content, disk st !! output j = Some content
               ∧ fully_formed w content
               ∧ disk st !! temp_of w (output j) = None.

(** *** Runs to compute on *)

Definition episode : Job :=
  {| source := "https://cdn.example/ep1/master.m3u8";
     referer := "https://aniworld.to/";
     name := "Show - S01E01 - GerDub";
     output := "downloads/Show - S01E01 - GerDub.mp4";
     skipIfExists := true;
     retryBudget := 2 |}.

(** A remote that resets the connection in every attempt, after one
    chunk. *)
Definition flaky : World :=
  {| fetch := λ k, Transient "connection reset" ["seg0"];
     remux := λ content, Some ("mp4:" +:+ content);
     temp_of := λ p, p +:+ ".part";
     overwrite := false;
     indexed := ∅ |}.

(** A remote that fails twice and then serves a segmented stream. *)
Definition recovering : World :=
  {| fetch := λ k, match k with
                   | 0 => Transient "timeout" []
                   | 1 => Transient "502" ["seg0"]
                   | _ => Body ["seg0"; "seg1"] true
                   end;
     remux := λ content, Some ("mp4:" +:+ content);
     temp_of := λ p, p +:+ ".part";
     overwrite := false;
     indexed := ∅ |}.

End Executor.

(** ** Jobs executed side by side *)

Module Run.
Import Executor.

(** Modelled from the spec: a job of a run with the collaborators its
    execution meets (section 4.5: every worker calls the Single-Job
    Executor; the scheduler's code is missing). *)
Record Task : Type := mkRunTask {
  world : World;
  job : Job
}.


(** Modelled from the spec: the path of the temporary file of a task
    (section 4.4, step 2b; code missing). *)
Definition temporary (t : Task) : string :=
  temp_of (world t) (output (job t)).

(** Modelled from the spec: what follows the streaming of a body in an
    attempt of the missing executor: the remux and the rename (2d, 2e),
    a retry (2c), or the unwinding of a cancelled job. [chunks] is the
    whole body that was served. *)
Inductive Then : Type :=
| ThenPlace (segmented : bool) (chunks : list string)
| ThenRetry (reason : string)
| ThenAbandon.

(** Modelled from the spec: where the execution of one job stands
    (section 4.4; code missing): before step 1; at the top of step 2
    with [left] attempts to go, the next being number [k]; streaming
    the [chunks] still to come into the temporary file; before the
    rename of step 2e; before the removal of the temporary file; done,
    with the outcome. *)
Inductive Phase : Type :=
| Starting
| Ready (left k : nat) (last : string)
| Writing (left k : nat) (chunks : list string) (next : Then)
| Placing
| Cleaning (o : Outcome)
| Finished (o : Outcome).

(** Modelled from the spec: one step of the missing executor on the
    disk the workers share. It is [Executor.execute] cut at every disk
    operation: a step applies at most one operation, so that the steps
    of different jobs can alternate between any two of them. *)
Definition step (w : World) (j : Job) (ph : Phase) (d : gmap string string)
  : Phase * gmap string string :=
  let tmp := temp_of w (output j) in
  match ph with
  | Starting =>
      if skipIfExists j && DirCache.contains (indexed w) (name j)
      then (Finished Skipped, d)
      else (Ready (S (retryBudget j)) 0 "", d)
  | Ready 0 k last => (Finished (Failed last), apply_op d (Remove tmp))
  | Ready (S left') k last =>
      match fetch w k with
      | Body chunks segmented =>
          (Writing left' k chunks (ThenPlace segmented chunks),
           apply_op d (Create tmp))
      | Transient reason chunks =>
          (Writing left' k chunks (ThenRetry reason), apply_op d (Create tmp))
      | Permanent reason => (Cleaning (Failed reason), d)
      | Cancelled chunks =>
          (Writing left' k chunks ThenAbandon, apply_op d (Create tmp))
      end
  | Writing left' k (chunk :: rest) next =>
      (Writing left' k rest next, apply_op d (Append tmp chunk))
  | Writing left' k [] next =>
      match next with
      | ThenPlace false chunks => (Placing, d)
      | ThenPlace true chunks =>
          match remux w (foldl String.append "" chunks) with
          | Some content => (Placing, apply_op d (Replace tmp content))
          | None => (Ready left' (S k) "remux failed", d)
          end
      | ThenRetry reason => (Ready left' (S k) reason, d)
      | ThenAbandon => (Cleaning Stopped, d)
      end
  | Placing =>
      if bool_decide (is_Some (d !! output j)) && negb (overwrite w)
      then (Cleaning (Failed "output exists"), d)
      else (Finished Completed, apply_op d (Rename tmp (output j)))
  | Cleaning o => (Finished o, apply_op d (Remove tmp))
  | Finished o => (Finished o, d)
  end.

(** Modelled from the spec: [n] steps of one job with the disk to
    itself. *)
Fixpoint steps (w : World) (j : Job) (n : nat) (ph : Phase)
         (d : gmap string string) : Phase * gmap string string :=
  match n with
  | 0 => (ph, d)
  | S n' => let '(ph', d') := step w j ph d in steps w j n' ph' d'
  end.

(** Modelled from the spec: the job at [ph] on the disk [d] comes to
    [ph'] on [d'] in some number of steps of its own. *)
Definition reaches (w : World) (j : Job) (ph : Phase) (d : gmap string string)
           (ph' : Phase) (d' : gmap string string) : Prop :=
  ∃ n, steps w j n ph d = (ph', d').

(** Modelled from the spec: a run of the missing scheduler (section
    4.5): where every job stands, the disk they share, and every disk
    there has been, newest first. *)
Record Run : Type := mkRun {
  phases : list Phase;
  files : gmap string string;
  seen : list (gmap string string)
}.

(** Modelled from the spec: the run before any worker has moved. *)
Definition start (tasks : list Task) (disk0 : gmap string string) : Run :=
  {| phases := (λ _, Starting) <$> tasks; files := disk0; seen := [disk0] |}.

(** Modelled from the spec: the job numbered [i] makes its next step
    and the disk it leaves is recorded; a number that names no job
    changes nothing. *)
Definition turn (tasks : list Task) (r : Run) (i : nat) : Run :=
  match tasks !! i, phases r !! i with
  | Some t, Some ph =>
      let '(ph', d') := step (world t) (job t) ph (files r) in
      {| phases := <[i := ph']> (phases r); files := d';
         seen := d' :: seen r |}
  | _, _ => r
  end.

(** Modelled from the spec: the run after the jobs moved in the order
    of [schedule]. Which job moves next is up to the workers; every
    interleaving of the jobs' steps is some schedule, whatever the
    concurrency limit. *)
Definition run (tasks : list Task) (schedule : list nat) (r : Run) : Run :=
  foldl (turn tasks) r schedule.



(** *** Runs to compute on *)

(** A second episode, served whole and unsegmented in two chunks. *)
Definition second_episode : Job :=
  {| source := "https://cdn.example/ep2/video.mp4";
     referer := "https://aniworld.to/";
     name := "Show - S01E02 - GerDub";
     output := "downloads/Show - S01E02 - GerDub.mp4";
     skipIfExists := true;
     retryBudget := 2 |}.

Definition steady : World :=
  {| fetch := λ k, Body ["b1"; "b2"] false;
     remux := λ content, Some ("mp4:" +:+ content);
     temp_of := λ p, p +:+ ".part";
     overwrite := false;
     indexed := ∅ |}.

Definition two_episodes : list Task :=
  [ {| world := recovering; job := episode |};
    {| world := steady; job := second_episode |} ].

(** The two jobs alternate, step by step. *)
Definition alternating : list nat :=
  [0; 1; 0; 1; 0; 1; 0; 1; 0; 1; 0; 1; 0; 0; 0; 0; 0; 0; 0].

(** A remote that serves [chunks] whole, in a world where every
    output path is given the same temporary file. *)
Definition careless (chunks : list string) : World :=
  {| fetch := λ k, Body chunks false;
     remux := λ content, Some content;
     temp_of := λ p, "downloads/tmp";
     overwrite := false;
     indexed := ∅ |}.

(** Two jobs that write the same temporary file, and a schedule in
    which their chunks alternate. *)
Definition clashing : list Task :=
  [ {| world := careless ["a1"; "a2"]; job := episode |};
    {| world := careless ["b1"; "b2"]; job := second_episode |} ].

Definition clash : list nat :=
  [0; 1; 0; 1; 1; 0; 0; 0; 0].

End Run.

(** ** Cancellation, on the logical clock *)

Module Scheduler.
Import Cadence Executor.

(** Modelled from the spec: how a suspension point of section 5 ends
    (code missing): its wait ran its natural course, or the run-scoped
    cancellation signal ended it; either way, the time on the logical
    clock at which the caller goes on. *)
Inductive Resumed : Type :=
| Elapsed (time : nat)
| Interrupted (time : nat).

(** Modelled from the spec: the time at which a suspension point
    returned, however it ended (code missing). *)
Definition at_time (r : Resumed) : nat :=
  match r with
  | Elapsed time => time
  | Interrupted time => time
  end.

(** Modelled from the spec: a suspension point (section 5; code
    missing) entered at [now] for a wait of [natural] ticks. [ctx] is
    the run-scoped cancellation signal: the time at which it fires,
    [None] when it never does. A signal that has fired on entry or
    fires before the wait is over ends the wait at once; the clock is
    the one [Cadence.sleep] reads. *)
Definition suspend (ctx : option nat) (now natural : nat) : Resumed :=
  match ctx with
  | Some fires =>
      if (fires <=? now) || (fires <? now + natural)
      then Interrupted (Nat.max now fires)
      else Elapsed (now + natural)
  | None => Elapsed (now + natural)
  end.

(** Modelled from the spec: "return promptly (not after completing
    their natural duration)" (section 5; code missing), for a call
    entered at [now] that returned as [r]: a call the signal
    interrupted returned when the signal fired, or at once if it had
    fired before; a call that ran its course did not outlast the
    signal. *)
Definition prompt (ctx : option nat) (now : nat) (r : Resumed) : Prop :=
  match r with
  | Elapsed time =>
      now ≤ time ∧ ∀ fires, ctx = Some fires → time ≤ Nat.max now fires
  | Interrupted time => ∃ fires, ctx = Some fires ∧ time = Nat.max now fires
  end.

(** Modelled from the spec: "queue submission when full" (section 5;
    code missing): the producer waits [room_in] ticks for a place in
    the queue, none when there is room. *)
Definition queue_submit (ctx : option nat) (now room_in : nat) : Resumed :=
  suspend ctx now room_in.

(** Modelled from the spec: "queue consumption when empty (until
    closed)" (section 5; code missing): the worker waits [next_in]
    ticks for the next job or the close, none when a job is waiting. *)
Definition queue_consume (ctx : option nat) (now next_in : nat) : Resumed :=
  suspend ctx now next_in.

(** Modelled from the spec: "the Rate Governor's metered read" (section
    5; code missing): the read waits [refill_in] ticks for its budget
    to accrue. *)
Definition metered_read (ctx : option nat) (now refill_in : nat) : Resumed :=
  suspend ctx now refill_in.

(** Modelled from the spec: "the Cadence Guard's pause" (section 5;
    code missing): the pause [Cadence.beforeRequest] makes when it
    finds the counter at the threshold, and no wait otherwise. *)
Definition cadence_pause (ctx : option nat) (now : nat) (s : CadenceState)
  : Resumed :=
  suspend ctx now (if reached s then pause s else 0).

(** Modelled from the spec: "a backoff delay that grows with attempt
    number, capped at a maximum" (section 4.4, step 2c; code missing),
    after attempt number [k]. *)
Definition backoff_delay (base ceiling k : nat) : nat :=
  Nat.min ceiling (base * 2 ^ k).

(** Modelled from the spec: "retry backoff sleep" (section 5; code
    missing). *)
Definition backoff_sleep (ctx : option nat) (now base ceiling k : nat)
  : Resumed :=
  suspend ctx now (backoff_delay base ceiling k).

(** Modelled from the spec: "the remote I/O call itself" (section 5;
    code missing): the response takes [latency] ticks to arrive. *)
Definition remote_call (ctx : option nat) (now latency : nat) : Resumed :=
  suspend ctx now latency.

(** Modelled from the spec: [beforeRequest] of section 4.3 under the
    signal (step 2a of section 4.4: "propagate cancellation
    immediately"; code missing): a call that is interrupted leaves the
    guard as it found it. *)
Definition beforeRequest_until (ctx : option nat) (s : CadenceState)
           (now : nat) : CadenceState * Resumed :=
  match cadence_pause ctx now s with
  | Elapsed woke =>
      (increment (if reached s then reset s else s), Elapsed woke)
  | Interrupted time => (s, Interrupted time)
  end.

(** Modelled from the spec: the waits one job meets (sections 4.4 and
    5; code missing). What the shared guard, the shared rate budget and
    the queue hold when the job comes to them depends on the other
    workers; it is given here, job by job. *)
Record Pace : Type := mkPace {
  next_in : nat;                  (* until the job can be pulled from the queue *)
  guard : nat → CadenceState;     (* the cadence guard as attempt [k] finds it *)
  latency : nat → nat;            (* until the remote answers attempt [k] *)
  refill_in : nat → nat → nat;    (* until read [i] of attempt [k] has its budget *)
  backoff_base : nat;
  backoff_ceiling : nat
}.

(** Modelled from the spec: the body of a response is read chunk by
    chunk, every read metered (section 4.2; code missing): the chunks
    that arrived, and how the reading ended. *)
Fixpoint reads (ctx : option nat) (refill : nat → nat) (chunks : list string)
         (i now : nat) : list string * Resumed :=
  match chunks with
  | [] => ([], Elapsed now)
  | chunk :: rest =>
      match metered_read ctx now (refill i) with
      | Interrupted time => ([], Interrupted time)
      | Elapsed time =>
          let '(got, r) := reads ctx refill rest (S i) time in
          (chunk :: got, r)
      end
  end.

(** Modelled from the spec: the chunks a fetch serves (code missing). *)
Definition chunks_of (f : Fetch) : list string :=
  match f with
  | Body chunks _ => chunks
  | Transient _ chunks => chunks
  | Permanent _ => []
  | Cancelled chunks => chunks
  end.

(** Modelled from the spec: what attempt [k] meets under the signal
    (step 2b of section 4.4; code missing): the remote call and then
    the metered reads; a signal that fires during either cuts the fetch
    short, with the chunks that had arrived. *)
Definition meets (ctx : option nat) (w : World) (p : Pace) (k now : nat)
  : Fetch * Resumed :=
  match remote_call ctx now (latency p k) with
  | Interrupted time => (Cancelled [], Interrupted time)
  | Elapsed answered =>
      match reads ctx (refill_in p k) (chunks_of (fetch w k)) 0 answered with
      | (got, Interrupted time) => (Cancelled got, Interrupted time)
      | (_, Elapsed time) => (fetch w k, Elapsed time)
      end
  end.

(** Modelled from the spec: the world in which attempt [k] meets [f]
    (code missing). *)
Definition served (w : World) (k : nat) (f : Fetch) : World :=
  {| fetch := λ n, if n =? k then f else fetch w n;
     remux := remux w; temp_of := temp_of w; overwrite := overwrite w;
     indexed := indexed w |}.

(** Modelled from the spec: steps 2 and 3 of section 4.4 on the logical
    clock (code missing): [Executor.attempts] with the waits of every
    attempt: the cadence guard (2a), the remote call and the metered
    reads (2b), the backoff before the next attempt (2c). A wait that
    the signal interrupts ends the job: the temporary file is deleted
    and the outcome is [Stopped]. Disk operations take no time on this
    clock. *)
Fixpoint attempts_until (ctx : option nat) (w : World) (j : Job) (p : Pace)
         (left k : nat) (last : string) (st : State) (now : nat)
  : Outcome * State * Resumed :=
  let tmp := temp_of w (output j) in
  match left with
  | 0 => (Failed last, perform (Remove tmp) st, Elapsed now)
  | S left' =>
      match cadence_pause ctx now (guard p k) with
      | Interrupted time =>
          (Stopped, perform (Remove tmp) st, Interrupted time)
      | Elapsed woke =>
          let '(f, r) := meets ctx w p k woke in
          let '(a, st') := attempt (served w k f) j k st in
          match r with
          | Interrupted time =>
              (Stopped, perform (Remove tmp) st', Interrupted time)
          | Elapsed time =>
              match a with
              | Succeeded => (Completed, st', Elapsed time)
              | Retry reason =>
                  match left' with
                  | 0 => (Failed reason, perform (Remove tmp) st',
                          Elapsed time)
                  | S _ =>
                      match backoff_sleep ctx time (backoff_base p)
                                          (backoff_ceiling p) k with
                      | Interrupted time' =>
                          (Stopped, perform (Remove tmp) st',
                           Interrupted time')
                      | Elapsed time' =>
                          attempts_until ctx w j p left' (S k) reason st'
                                         time'
                      end
                  end
              | GiveUp reason =>
                  (Failed reason, perform (Remove tmp) st', Elapsed time)
              | Abandon => (Stopped, perform (Remove tmp) st', Elapsed time)
              end
          end
      end
  end.

(** Modelled from the spec: [execute(job, ctx)] of section 4.4 on the
    logical clock (code missing): the outcome, the state left, and how
    and when the call returned. *)
Definition execute_until (ctx : option nat) (w : World) (j : Job) (p : Pace)
           (st : State) (now : nat) : Outcome * State * Resumed :=
  if skipIfExists j && DirCache.contains (indexed w) (name j)
  then (Skipped, st, Elapsed now)
  else attempts_until ctx w j p (S (retryBudget j)) 0 "" st now.

(** Modelled from the spec: a job as a worker meets it (section 4.5;
    code missing). *)
Record Queued : Type := mkQueued {
  world : World;
  job : Job;
  pace : Pace
}.

(** Modelled from the spec: one worker loop of [run] (section 4.5; code
    missing): it pulls the next job and calls the executor, until its
    jobs are done or the signal interrupts it; [lane] is the jobs this
    worker comes to pull. The outcomes, in order, and how and when the
    loop returned. Every job finds the disk as the run found it: the
    jobs of a run write to paths of their own. *)
Fixpoint worker (ctx : option nat) (lane : list Queued)
         (disk0 : gmap string string) (now : nat)
  : list Outcome * Resumed :=
  match lane with
  | [] => ([], Elapsed now)
  | q :: rest =>
      match queue_consume ctx now (next_in (pace q)) with
      | Interrupted time => ([], Interrupted time)
      | Elapsed pulled =>
          match execute_until ctx (world q) (job q) (pace q) (begin disk0)
                              pulled with
          | (o, _, Interrupted time) => ([o], Interrupted time)
          | (o, _, Elapsed time) =>
              let '(os, r) := worker ctx rest disk0 time in (o :: os, r)
          end
      end
  end.

(** Modelled from the spec: the RunResult of section 3 (code missing):
    the three counts and the "distinguished cancellation indicator" of
    section 5. *)
Record RunResult : Type := mkRunResult {
  completed : nat;
  skipped : nat;
  failed : nat;
  cancelled : bool
}.

(** Modelled from the spec: "accumulates each outcome into RunResult"
    (section 4.5; code missing): a job that was stopped adds to none of
    the counts and sets the indicator. *)
Definition record (o : Outcome) (r : RunResult) : RunResult :=
  match o with
  | Completed =>
      {| completed := S (completed r); skipped := skipped r;
         failed := failed r; cancelled := cancelled r |}
  | Skipped =>
      {| completed := completed r; skipped := S (skipped r);
         failed := failed r; cancelled := cancelled r |}
  | Failed _ =>
      {| completed := completed r; skipped := skipped r;
         failed := S (failed r); cancelled := cancelled r |}
  | Stopped =>
      {| completed := completed r; skipped := skipped r;
         failed := failed r; cancelled := true |}
  end.

(** Modelled from the spec: what one worker adds to the RunResult
    (section 4.5; code missing): its outcomes, and the indicator when
    the signal interrupted it. *)
Definition report (ended : list Outcome * Resumed) (r : RunResult)
  : RunResult :=
  let r' := foldr record r ended.1 in
  match ended.2 with
  | Elapsed _ => r'
  | Interrupted _ =>
      {| completed := completed r'; skipped := skipped r';
         failed := failed r'; cancelled := true |}
  end.

(** Modelled from the spec: the RunResult before any outcome (code
    missing). *)
Definition nothing : RunResult :=
  {| completed := 0; skipped := 0; failed := 0; cancelled := false |}.

(** Modelled from the spec: [run(ctx)] of section 4.5 (code missing):
    one worker loop per lane, at most [concurrency] of them, all
    started at [now]; the RunResult, and the time at which the last
    worker has returned. *)
Definition run (ctx : option nat) (lanes : list (list Queued))
           (disk0 : gmap string string) (now : nat) : RunResult * nat :=
  let ended := (λ lane, worker ctx lane disk0 now) <$> lanes in
  (foldr report nothing ended,
   foldr Nat.max now (at_time ∘ snd <$> ended)).

(** *** Runs to compute on *)

(** A guard that is below its threshold at every attempt, a remote
    that answers after 3 ticks, reads that wait 2 ticks each, and a
    backoff that starts at 5 ticks. *)
Definition unhurried : Pace :=
  {| next_in := 0;
     guard := λ k, {| counter := k; threshold := 4; pause := 30 |};
     latency := λ k, 3;
     refill_in := λ k i, 2;
     backoff_base := 5; backoff_ceiling := 60 |}.

Definition third_episode : Job :=
  {| source := "https://cdn.example/ep3/video.mp4";
     referer := "https://aniworld.to/";
     name := "Show - S01E03 - GerDub";
     output := "downloads/Show - S01E03 - GerDub.mp4";
     skipIfExists := true;
     retryBudget := 2 |}.

(** Two workers: the first has the episode whose remote recovers, the
    second an episode whose remote never does, and then one served
    whole. *)
Definition two_lanes : list (list Queued) :=
  [ [ {| world := recovering; job := episode; pace := unhurried |} ];
    [ {| world := flaky; job := third_episode; pace := unhurried |};
      {| world := Run.steady; job := Run.second_episode;
         pace := unhurried |} ] ].

End Scheduler.

(** ** Readers of the directory cache, counted *)

Module Readers.
Import DirCache.

(** A reader holds the read lock from its [RLock] to its deferred
    [RUnlock]. *)
Definition inside (r : Reader) : bool :=
  match pc r with
  | AtMp4 | AtTs | AtBare | AtRUnlock _ => true
  | AtRLock | Returned _ => false
  end.

(** The readers of a pool that hold the read lock. *)
Definition holders (pool : list Reader) : nat :=
  sum_list_with (λ r, if inside r then 1 else 0) pool.

(** One reader per name, each about to call [CheckIfEpisodeExists]. *)
Definition callers (names : list string) : list Reader :=
  (λ n, {| query := n; pc := AtRLock |}) <$> names.

(** What a reader that asks for [name] may hold at each statement when
    it runs [CheckIfEpisodeExists] on cache [c]: the lookups it has
    behind it missed, and an answer it carries is the function's. *)
Definition on_track (c : DirectoryCache) (name : string) (r : Reader) : Prop :=
  query r = name
  ∧ match pc r with
    | AtRLock | AtMp4 => True
    | AtTs => has c (name +:+ ".mp4") = false
    | AtBare =>
        has c (name +:+ ".mp4") = false ∧ has c (name +:+ ".ts") = false
    | AtRUnlock answer | Returned answer =>
        answer = (CheckIfEpisodeExists c name).1
    end.

(** A schedule and callers to compute on. *)
Definition sample_schedule : list nat := [0; 1; 1; 0; 1; 0; 1; 1; 0; 0; 1].

Definition sample_names : list string :=
  ["Show - S01E02 - GerDub"; "Show - S01E04 - GerDub"].

End Readers.

(** ** Directory listings to compare *)

Module Listing.
Import Os DirCache.

(** The files of [sample_entries] in another order, one of them listed
    twice, beside other subdirectories. *)
Definition shuffled_entries : list DirEntry :=
  [ {| Name := "Show - S01E03 - GerDub"; IsDir := false |};
    {| Name := "extras"; IsDir := true |};
    {| Name := "Show - S01E02 - GerDub.ts"; IsDir := false |};
    {| Name := "Show - S01E01 - GerDub.mp4"; IsDir := false |};
    {| Name := "Show - S01E03 - GerDub"; IsDir := false |} ].

Definition shuffled_fs : gmap string Node :=
  {[ "library/Show" := Directory shuffled_entries ]}.

Definition shuffled_cache : DirectoryCache :=
  {| mu := {| readerCount := 0 |};
     files := foldl add_entry ∅ shuffled_entries |}.

End Listing.

(** ** cmd/gad: what passes through the task queue *)

Module Pipeline.
Import Chan Main.

(** The [download.ManagerTask] the feeder builds from a wrapper. *)
Definition to_task (tw : DownloadTaskWrapper) : ManagerTask :=
  {| DownloadUrl := tw_Url tw; Referer := tw_Referer tw;
     VideoType := tw_Lang tw; EpisodeInfo := tw_Episode tw |}.

(** The wrappers whose send completed, in the order of the sends, over a
    sequence of moves from [q]. *)
Fixpoint accepted (q : Queue) (moves : list Move) : list DownloadTaskWrapper :=
  match moves with
  | [] => []
  | m :: rest =>
      match move q m with
      | Proceeds q' =>
          match m with
          | Produce tw => tw :: accepted q' rest
          | Feed | CloseTasks => accepted q' rest
          end
      | Blocks | Panics => accepted q rest
      end
  end.

(** The moves of a scrape that sends [tws], with a turn of the feeder
    after every second send, until the deferred close and the feeder's
    last turns. *)
Definition sample_wrapper (episode : string) : DownloadTaskWrapper :=
  {| tw_Url := "https://cdn.example/" +:+ episode;
     tw_Referer := "https://aniworld.to/"; tw_Lang := "GerDub";
     tw_Episode := episode |}.

Definition sample_moves : list Move :=
  [ Produce (sample_wrapper "S01E01"); Produce (sample_wrapper "S01E02");
    Feed; Produce (sample_wrapper "S01E03") ].

End Pipeline.

(** ** cmd/gad: the earlier entry point

    The second listing of cmd/gad/main.go, from before the handlers
    returned errors. *)

Module Sdl.
Import Main.

(** The "Main work" part of the earlier [main]: both handlers return
    nothing, and [main] returns after either. *)
Definition main_work (w : Calls) (args : Args) : Z :=
  if negb (String.eqb (Url args) "") then
    if negb (String.eqb (Extractor args) "") then
      0      (* handleSingleDownload(...), then main returns *)
    else
      0      (* handleSeriesDownload(...), then main returns *)
  else 1.    (* os.Exit(1) *)

(** The earlier [main]: the exit status of the process. *)
Definition main (w : Calls) (args : Args) : Z :=
  match Execute w with
  | Some err => 1
  | None =>
  match GetDataDir w with
  | Some err => 1
  | None =>
  match GetSaveDirectory w with
  | Some err => 1
  | None =>
  match ParseRateLimit w with
  | Some err => 1
  | None =>
  match AutoDownload w with
  | Some err => 1
  | None => main_work w args
  end end end end end.

End Sdl.

(** ** pkg/chrome: the uBlock extension *)

Module Chrome.

Definition UblockGithubAPIURL : string :=
  "https://api.github.com/repos/uBlockOrigin/uBOL-home/releases/latest".

Definition UblockFallbackDownloadURL : string :=
  "https://github.com/uBlockOrigin/uBOL-home/releases/download/2026.215.1801/uBOLite_2026.215.1801.chromium.zip".

(** [strings.Contains(s, substr)] *)
Fixpoint Contains (s substr : string) : bool :=
  if String.prefix substr s then true
  else match s with
       | EmptyString => false
       | String _ rest => Contains rest substr
       end.

(** The fields of the release that [fetchLatestUblockInfo] decodes. *)
Record Asset : Type := mkAsset {
  Name : string;
  BrowserDownloadURL : string
}.

Record Release : Type := mkRelease {
  TagName : string;
  Assets : list Asset
}.

(** What the request to [UblockGithubAPIURL] meets: [http.Get] fails,
    the body does not decode, or it decodes to a release. *)
Inductive Response : Type :=
| GetFailed (err : string)
| DecodeFailed (err : string)
| Decoded (release : Release).

(** The loop over [release.Assets]: the URL of the first asset whose
    name contains "chromium", where the loop breaks; the empty string
    when there is none. *)
Fixpoint chromium_url (assets : list Asset) : string :=
  match assets with
  | [] => ""
  | asset :: rest =>
      if Contains (Name asset) "chromium" then BrowserDownloadURL asset
      else chromium_url rest
  end.

(** [fetchLatestUblockInfo]: [inl (tag, url)], or [inr] the error. *)
Definition fetchLatestUblockInfo (resp : Response) : string * string + string :=
  match resp with
  | GetFailed err => inr err
  | DecodeFailed err => inr err
  | Decoded release =>
      let downloadURL := chromium_url (Assets release) in
      if String.eqb (TagName release) "" || String.eqb downloadURL ""
      then inr "missing tag or download url in github response"
      else inl (TagName release, downloadURL)
  end.

(** An error of [getUblockDirectory]: the one [os.ReadDir] returned, or
    one made with [fmt.Errorf]. *)
Inductive error : Type :=
| Sys (e : Os.Errno)
| Msg (text : string).

(** What [http.Get(downloadURL)] meets: an error, or a response with
    its [StatusCode] and [Status]. *)
Inductive Fetched : Type :=
| GetError (err : string)
| Answered (StatusCode : Z) (Status : string).

(** The outcomes of the calls [prepareUblock] makes, in one run; [None]
    is a nil error. *)
Record Install : Type := mkInstall {
  currentVersion : string;             (* strings.TrimSpace of the version file, empty when it cannot be read *)
  latest : Response;                   (* met by m.fetchLatestUblockInfo() *)
  Stat : bool;                         (* os.Stat(ublockDir) returns no error *)
  MkdirAll_dataDir : option string;    (* os.MkdirAll(m.dataDir, 0755) *)
  download : Fetched;                  (* http.Get(downloadURL) *)
  Create : option string;              (* os.Create(zipPath) *)
  Copy : option string;                (* io.Copy(out, resp.Body) *)
  MkdirAll_ublockDir : option string;  (* os.MkdirAll(ublockDir, 0755) *)
  Unzip : option string                (* m.unzip(zipPath, ublockDir) *)
}.

(** What [prepareUblock] asks of the disk and the network, call by
    call: [os.ReadFile], [os.Stat], [os.MkdirAll], [http.Get],
    [os.Create], [io.Copy], [os.Remove], [os.RemoveAll], [m.unzip] and
    [os.WriteFile]. A call is listed whether it succeeds or not;
    logging and the closing of handles are not listed. *)
Inductive Effect : Type :=
| ReadFile (path : string)
| StatPath (path : string)
| MkdirAll (path : string)
| HttpGet (url : string)
| CreateFile (path : string)
| CopyBody (path : string)
| RemoveFile (path : string)
| RemoveAll (path : string)
| Extract (src dest : string)
| WriteFile (path content : string).

(** [latestTag] and [downloadURL] after the fallback of
    [prepareUblock]. *)
Definition latestTag (i : Install) : string :=
  match fetchLatestUblockInfo (latest i) with
  | inl (tag, _) => tag
  | inr _ => "fallback"
  end.

Definition downloadURL (i : Install) : string :=
  match fetchLatestUblockInfo (latest i) with
  | inl (_, url) => url
  | inr _ => UblockFallbackDownloadURL
  end.

(** The outer guard of the early [return nil] of [prepareUblock]:
    [currentVersion != "" && currentVersion == latestTag &&
    latestTag != "fallback"]. *)
Definition same_version (i : Install) : bool :=
  negb (String.eqb (currentVersion i) "")
  && String.eqb (currentVersion i) (latestTag i)
  && negb (String.eqb (latestTag i) "fallback").

(** The early [return nil] is taken: the outer guard holds and
    [os.Stat(ublockDir)], called under it, returns no error. *)
Definition up_to_date (i : Install) : bool :=
  same_version i && Stat i.

Section Paths.

(** [filepath.Join] *)
Variable Join : string → string → string.

(** [getUblockDirectory] *)
Definition getUblockDirectory (fs : gmap string Os.Node) (ublockDir : string)
  : string + error :=
  match Os.ReadDir fs ublockDir with
  | Os.Err err => inr (Sys err)
  | Os.Ok entries =>
      match entries with
      | [] => inr (Msg "ublock directory is empty")
      | [entry] =>
          if Os.IsDir entry then inl (Join ublockDir (Os.Name entry))
          else inl ublockDir
      | _ :: _ :: _ => inl ublockDir
      end
  end.

(** [prepareUblock]: the error it returns and what it has done. The
    version file is read and [fetchLatestUblockInfo] requests
    [UblockGithubAPIURL] on every run; [os.Stat(ublockDir)] is called
    under the outer guard only. The deferred [os.Remove(zipPath)] runs
    last, on every return after the copy. *)
Definition prepareUblock (dataDir ublockDir : string) (i : Install)
  : option string * list Effect :=
  let versionFile := Join dataDir "current_ublock_version" in
  let asked := [ReadFile versionFile; HttpGet UblockGithubAPIURL] in
  let probed :=
    if same_version i then (asked ++ [StatPath ublockDir])%list
    else asked in
  if up_to_date i then (None, probed)
  else
    match MkdirAll_dataDir i with
    | Some err => (Some err, (probed ++ [MkdirAll dataDir])%list)
    | None =>
    let zipPath := Join dataDir "uBlock.zip" in
    let fetched :=
      (probed ++ [MkdirAll dataDir; HttpGet (downloadURL i)])%list in
    match download i with
    | GetError err => (Some ("failed to download uBlock: " +:+ err), fetched)
    | Answered StatusCode Status =>
    if negb (StatusCode =? 200)%Z
    then (Some ("bad status from github: " +:+ Status), fetched)
    else
    match Create i with
    | Some err => (Some err, (fetched ++ [CreateFile zipPath])%list)
    | None =>
    match Copy i with
    | Some err =>
        (Some err, (fetched ++ [CreateFile zipPath; CopyBody zipPath])%list)
    | None =>
    let copied :=
      (fetched ++ [CreateFile zipPath; CopyBody zipPath;
                   RemoveAll ublockDir; MkdirAll ublockDir])%list in
    match MkdirAll_ublockDir i with
    | Some err => (Some err, (copied ++ [RemoveFile zipPath])%list)
    | None =>
    match Unzip i with
    | Some err =>
        (Some ("failed to unzip uBlock: " +:+ err),
         (copied ++ [Extract zipPath ublockDir; RemoveFile zipPath])%list)
    | None =>
        (None,
         (copied ++ [Extract zipPath ublockDir;
                     WriteFile versionFile (latestTag i);
                     RemoveFile zipPath])%list)
    end end end end end end.

End Paths.

(** *** Unpacking the archive and starting the browser *)

(** An entry of the archive ([zip.File]) with the outcomes of the calls
    [unzip] makes for it; [None] is a nil error. *)
Record ZipEntry : Type := mkZipEntry {
  zip_Name : string;                  (* f.Name *)
  zip_IsDir : bool;                   (* f.FileInfo().IsDir() *)
  MkdirAll_parent : option string;    (* os.MkdirAll(filepath.Dir(fpath), os.ModePerm) *)
  OpenFile : option string;           (* os.OpenFile(fpath, ...) *)
  Open : option string;               (* f.Open() *)
  CopyEntry : option string           (* io.Copy(outFile, rc) *)
}.

(** What [unzip] does to the disk, call by call; a call is listed
    whether it succeeds or not. *)
Inductive Unpack : Type :=
| MakeDir (path : string)      (* os.MkdirAll(path, os.ModePerm) *)
| Truncate (path : string)     (* os.OpenFile(path, O_WRONLY|O_CREATE|O_TRUNC, mode) *)
| Fill (path : string).        (* io.Copy into the file at path *)

(** A call that [chromedp] gets as an allocator option. *)
Inductive FlagValue : Type :=
| On                     (* the bool true *)
| Text (value : string).

Inductive ExecAllocatorOption : Type :=
| NoDefaultBrowserCheck
| NoFirstRun
| DisableGPU
| Headless
| Flag (name : string) (value : FlagValue)
| UserAgent (userAgent : string)
| WindowSize (width height : Z).

(** What [Get] leaves behind: the options the browser was started
    with, whether [chromedp.WithLogf] was passed, whether
    [combinedCancel] has run, and the error returned. *)
Record Started : Type := mkStarted {
  options : list ExecAllocatorOption;
  logging : bool;
  cancelled : bool;
  failure : option string
}.

Section Browser.

(** [filepath.Join] and [filepath.Dir] *)
Variable Join : string → string → string.
Variable Dir : string → string.

(** The loop of [unzip] over [r.File]: the error returned and what was
    done. *)
Fixpoint unzip_files (dest : string) (entries : list ZipEntry)
  : option string * list Unpack :=
  match entries with
  | [] => (None, [])
  | f :: rest =>
      let fpath := Join dest (zip_Name f) in
      if zip_IsDir f then
        let '(err, done) := unzip_files dest rest in
        (err, MakeDir fpath :: done)
      else
        match MkdirAll_parent f with
        | Some err => (Some err, [MakeDir (Dir fpath)])
        | None =>
        match OpenFile f with
        | Some err => (Some err, [MakeDir (Dir fpath); Truncate fpath])
        | None =>
        match Open f with
        | Some err => (Some err, [MakeDir (Dir fpath); Truncate fpath])
        | None =>
        match CopyEntry f with
        | Some err =>
            (Some err, [MakeDir (Dir fpath); Truncate fpath; Fill fpath])
        | None =>
            let '(err, done) := unzip_files dest rest in
            (err, MakeDir (Dir fpath) :: Truncate fpath :: Fill fpath :: done)
        end end end end
  end.

(** [unzip]: [archive] is what [zip.OpenReader(src)] returns, an error
    or the entries. *)
Definition unzip (archive : string + list ZipEntry) (dest : string)
  : option string * list Unpack :=
  match archive with
  | inl err => (Some err, [])
  | inr entries => unzip_files dest entries
  end.

(** [Get]: [fs] is the disk as [getUblockDirectory] finds it, after
    [prepareUblock]; [run] is the error of [chromedp.Run], [None] for
    nil. A failing [prepareUblock] is logged and nothing more, so its
    outcome is no input. *)
Definition Get (dataDir : string) (fs : gmap string Os.Node)
           (run : option string) (headless debug : bool) : Started :=
  let ublockDir := Join dataDir "uBlock" in
  let opts := [NoDefaultBrowserCheck; NoFirstRun; DisableGPU] in
  let opts := if headless then (opts ++ [Headless])%list else opts in
  let opts :=
    (opts ++
     [ Flag "disable-dev-shm-usage" On;
       Flag "disable-blink-features" (Text "AutomationControlled");
       UserAgent "Mozilla/5.0 (Windows NT 10.0; Win64; x64) AppleWebKit/537.36 (KHTML, like Gecko) Chrome/121.0.0.0 Safari/537.36";
       WindowSize 1920 1080;
       Flag "disable-infobars" On;
       Flag "exclude-switches" (Text "enable-automation,enable-logging") ])%list in
  let opts :=
    match getUblockDirectory Join fs ublockDir with
    | inl effectiveUblockDir =>
        (opts ++ [Flag "load-extension" (Text effectiveUblockDir)])%list
    | inr _ => opts
    end in
  match run with
  | Some err =>
      {| options := opts; logging := debug; cancelled := true;
         failure :=
           Some ("browser failed to start or patches failed: " +:+ err) |}
  | None =>
      {| options := opts; logging := debug; cancelled := false;
         failure := None |}
  end.

End Browser.

(** *** Runs to compute on *)

Definition sample_release : Release :=
  {| TagName := "2026.301.1200";
     Assets :=
       [ {| Name := "uBOLite_2026.301.1200.firefox.signed.xpi";
            BrowserDownloadURL := "https://example.org/firefox.xpi" |};
         {| Name := "uBOLite_2026.301.1200.chromium.zip";
            BrowserDownloadURL := "https://example.org/chromium.zip" |};
         {| Name := "uBOLite_2026.301.1200.chromium.mv3.zip";
            BrowserDownloadURL := "https://example.org/chromium-mv3.zip" |} ] |}.

(** A first start with GitHub out of reach: the fallback is installed. *)
Definition offline_install : Install :=
  {| currentVersion := ""; latest := GetFailed "dial tcp: no route to host";
     Stat := false; MkdirAll_dataDir := None;
     download := Answered 200 "200 OK"; Create := None; Copy := None;
     MkdirAll_ublockDir := None; Unzip := None |}.

(** The body of the archive breaks off. *)
Definition broken_copy : Install :=
  {| currentVersion := "2026.215.1801"; latest := Decoded sample_release;
     Stat := true; MkdirAll_dataDir := None;
     download := Answered 200 "200 OK"; Create := None;
     Copy := Some "unexpected EOF";
     MkdirAll_ublockDir := None; Unzip := None |}.

(** The installed version is the latest one. *)
Definition current_install : Install :=
  {| currentVersion := "2026.301.1200"; latest := Decoded sample_release;
     Stat := true; MkdirAll_dataDir := None;
     download := Answered 200 "200 OK"; Create := None; Copy := None;
     MkdirAll_ublockDir := None; Unzip := None |}.

Definition slash (dir name : string) : string := dir +:+ "/" +:+ name.

Definition unpacked_fs : gmap string Os.Node :=
  {[ "data/uBlock" :=
       Os.Directory [ {| Os.Name := "uBOLite.chromium"; Os.IsDir := true |} ];
     "data/flat" :=
       Os.Directory [ {| Os.Name := "manifest.json"; Os.IsDir := false |};
                      {| Os.Name := "js"; Os.IsDir := true |} ];
     "data/empty" := Os.Directory [] ]}.

(** Every call [unzip] makes for the entry succeeds; for a folder none
    is checked. *)
Definition unpacks (f : ZipEntry) : Prop :=
  zip_IsDir f = true
  ∨ (MkdirAll_parent f = None ∧ OpenFile f = None ∧ Open f = None
     ∧ CopyEntry f = None).

(** An archive with a folder and three files; the second file cannot
    be created. *)
Definition sample_archive : list ZipEntry :=
  [ {| zip_Name := "uBOLite.chromium/"; zip_IsDir := true;
       MkdirAll_parent := None; OpenFile := None; Open := None;
       CopyEntry := None |};
    {| zip_Name := "uBOLite.chromium/manifest.json"; zip_IsDir := false;
       MkdirAll_parent := None; OpenFile := None; Open := None;
       CopyEntry := None |};
    {| zip_Name := "uBOLite.chromium/js/background.js"; zip_IsDir := false;
       MkdirAll_parent := None; OpenFile := Some "permission denied";
       Open := None; CopyEntry := None |};
    {| zip_Name := "uBOLite.chromium/LICENSE.txt"; zip_IsDir := false;
       MkdirAll_parent := None; OpenFile := None; Open := None;
       CopyEntry := None |} ].

End Chrome.

(** ** pkg/logger *)

Module Logger.

(** The levels of log/slog. *)
Definition LevelDebug : Z := -4.
Definition LevelInfo : Z := 0.
Definition LevelWarn : Z := 4.
Definition LevelError : Z := 8.

(** [const LevelTrace = slog.LevelDebug - 4] *)
Definition LevelTrace : Z := LevelDebug - 4.

(** [CustomHandler], with the level of its options; the writer is the
    process's standard error. *)
Record CustomHandler : Type := mkHandler { opts_Level : Z }.

Definition NewCustomHandler (level : Z) : CustomHandler :=
  {| opts_Level := level |}.

(** [Enabled]: [level >= h.opts.Level.Level()] *)
Definition Enabled (h : CustomHandler) (level : Z) : bool :=
  (opts_Level h <=? level)%Z.

(** [WithAttrs] and [WithGroup] return the handler itself. *)
Definition WithAttrs (h : CustomHandler) (attrs : list (string * string))
  : CustomHandler := h.

Definition WithGroup (h : CustomHandler) (name : string) : CustomHandler := h.

(** [InitDefaultLogger]: the handler it installs as the default. *)
Definition InitDefaultLogger (debug : bool) : CustomHandler :=
  let level := if debug then LevelDebug else LevelInfo in
  NewCustomHandler level.

End Logger.

(** ** package utils *)

Module Utils.
Import Os.

Section Removal.

(** [os.Remove] and [os.RemoveAll]: the file system they leave and the
    error they return. *)
Variable Remove : gmap string Node → string → gmap string Node * option Errno.
Variable RemoveAll :
  gmap string Node → string → gmap string Node * option Errno.

(** [RemoveFileIgnoreNotExists] *)
Definition RemoveFileIgnoreNotExists (fs : gmap string Node) (path : string)
  : gmap string Node * option Errno :=
  let '(fs', err) := Remove fs path in
  match err with
  | Some e => if negb (IsNotExist e) then (fs', Some e) else (fs', None)
  | None => (fs', None)
  end.

(** [RemoveDirAllIgnoreNotExists] *)
Definition RemoveDirAllIgnoreNotExists (fs : gmap string Node) (path : string)
  : gmap string Node * option Errno :=
  let '(fs', err) := RemoveAll fs path in
  match err with
  | Some e => if negb (IsNotExist e) then (fs', Some e) else (fs', None)
  | None => (fs', None)
  end.

End Removal.

(** A file system to compute on, in which removing never fails for a
    path that exists. *)
Definition unlink (fs : gmap string Node) (path : string)
  : gmap string Node * option Errno :=
  match fs !! path with
  | None => (fs, Some ENOENT)
  | Some _ => (delete path fs, None)
  end.

End Utils.

(** * Properties *)

(** ** The directory cache *)

Module DirCacheFacts.
Import Os DirCache.

Lemma has_RLock c key : has (RLock c) key = has c key.
Proof. reflexivity. Qed.

Lemma has_true c key : has c key = true ↔ key ∈ dom (files c).
Proof. unfold has. rewrite bool_decide_eq_true. symmetry. apply elem_of_dom. Qed.

Lemma RUnlock_RLock c : RUnlock (RLock c) = c.
Proof. by destruct c as [[n] fl]. Qed.

(** The loop of [NewDirectoryCache] adds the names of the entries that
    are not directories, and nothing else. *)
Lemma foldl_add_entry_dom (entries : list DirEntry) (m : gmap string ()) key :
  key ∈ dom (foldl add_entry m entries)
  ↔ key ∈ dom m ∨ key ∈ Name <$> filter (λ e, IsDir e = false) entries.
Proof.
  revert m. induction entries as [|e entries IH]; intros m; simpl.
  - rewrite elem_of_nil. tauto.
  - rewrite IH. unfold add_entry. rewrite filter_cons.
    destruct (decide (IsDir e = false)) as [He|He].
    + rewrite He. simpl. rewrite dom_insert. set_solver.
    + apply not_false_iff_true in He. rewrite He. done.
Qed.

Lemma NewDirectoryCache_dom fs dir c :
  NewDirectoryCache fs dir = Ok c →
  dom (files c) = list_to_set (filenames fs dir).
Proof.
  unfold NewDirectoryCache, filenames. intros H.
  apply set_eq. intros key. rewrite elem_of_list_to_set.
  destruct (ReadDir fs dir) as [entries|err].
  - injection H as <-. simpl. rewrite foldl_add_entry_dom. set_solver.
  - destruct (IsNotExist err); [|done]. injection H as <-. simpl.
    set_solver.
Qed.

Lemma CheckIfEpisodeExists_answer c name :
  (CheckIfEpisodeExists c name).1 = contains (dom (files c)) name.
Proof.
  unfold CheckIfEpisodeExists, contains, variants. simpl.
  rewrite !has_RLock.
  destruct (has c (name +:+ ".mp4")) eqn:H1.
  { apply has_true in H1. by rewrite bool_decide_eq_true_2. }
  destruct (has c (name +:+ ".ts")) eqn:H2.
  { apply has_true in H2.
    destruct (bool_decide (name +:+ ".mp4" ∈ dom (files c))); [done|].
    by rewrite bool_decide_eq_true_2. }
  destruct (has c name) eqn:H3.
  { apply has_true in H3.
    destruct (bool_decide (name +:+ ".mp4" ∈ dom (files c))); [done|].
    destruct (bool_decide (name +:+ ".ts" ∈ dom (files c))); [done|].
    by rewrite bool_decide_eq_true_2. }
  rewrite !bool_decide_eq_false_2; [done|..];
    rewrite <- has_true; congruence.
Qed.

Lemma CheckIfEpisodeExists_cache c name :
  (CheckIfEpisodeExists c name).2 = c.
Proof. unfold CheckIfEpisodeExists. simpl. apply RUnlock_RLock. Qed.

Lemma contains_true indexed name :
  contains indexed name = true
  ↔ name +:+ ".mp4" ∈ indexed ∨ name +:+ ".ts" ∈ indexed ∨ name ∈ indexed.
Proof.
  unfold contains, variants. simpl.
  repeat case_bool_decide; naive_solver.
Qed.

(** C2. For every logical name, [CheckIfEpisodeExists] on the cache
    built from a directory answers true exactly when the filenames
    observed in the directory at construction include the name with
    ".mp4", the name with ".ts", or the bare name; the answer is the one
    of the first-match search over these variants in that order. *)
Theorem CheckIfEpisodeExists_iff_variant_observed fs dir c name :
  NewDirectoryCache fs dir = Ok c →
  ((CheckIfEpisodeExists c name).1 = true
   ↔ name +:+ ".mp4" ∈ filenames fs dir
     ∨ name +:+ ".ts" ∈ filenames fs dir
     ∨ name ∈ filenames fs dir)
  ∧ (CheckIfEpisodeExists c name).1
    = contains (list_to_set (filenames fs dir)) name.
Proof.
  intros Hbuild. apply NewDirectoryCache_dom in Hbuild.
  rewrite CheckIfEpisodeExists_answer, Hbuild. split; [|done].
  rewrite contains_true, !elem_of_list_to_set. done.
Qed.

Lemma NewDirectoryCache_absent fs dir :
  fs !! dir = None →
  NewDirectoryCache fs dir = Ok {| mu := {| readerCount := 0 |}; files := ∅ |}.
Proof. intros H. unfold NewDirectoryCache, ReadDir. by rewrite H. Qed.

(** C3. Over a directory that does not exist the build succeeds with an
    empty index, which answers false for every name; the build returns
    an error exactly when reading the directory fails with an error
    other than "does not exist", and the error is that one. *)
Theorem NewDirectoryCache_fails_only_on_other_errors fs dir :
  (fs !! dir = None →
   ∃ c, NewDirectoryCache fs dir = Ok c ∧ files c = ∅
        ∧ ∀ name, (CheckIfEpisodeExists c name).1 = false)
  ∧ (∀ err, NewDirectoryCache fs dir = Err err
            ↔ ReadDir fs dir = Err err ∧ IsNotExist err = false).
Proof.
  split.
  - intros Habsent. eexists. split; [by apply NewDirectoryCache_absent|].
    split; [done|]. intros name.
    rewrite CheckIfEpisodeExists_answer. simpl. rewrite dom_empty_L.
    apply not_true_is_false. rewrite contains_true.
    intros [H|[H|H]]; by apply not_elem_of_empty in H.
  - intros err. unfold NewDirectoryCache.
    destruct (ReadDir fs dir) as [entries|e].
    { split; [done|]. by intros [? _]. }
    destruct (IsNotExist e) eqn:He.
    + split; [done|]. intros [[= <-] Hne]. congruence.
    + split.
      * intros [= <-]. done.
      * by intros [[= <-] _].
Qed.

Lemma NewDirectoryCache_fails_only_on_other_errors_witness :
  ∃ c, NewDirectoryCache ∅ "downloads" = Ok c ∧ files c = ∅
       ∧ ∀ name, (CheckIfEpisodeExists c name).1 = false.
Proof.
  apply (proj1 (NewDirectoryCache_fails_only_on_other_errors ∅ "downloads")).
  reflexivity.
Defined.

Lemma step_files c r : files (step c r).1 = files c.
Proof. unfold step. by destruct (pc r). Qed.

Lemma interleave_files schedule : ∀ c pool,
  files (interleave schedule c pool).1 = files c.
Proof.
  induction schedule as [|i rest IH]; intros c pool; simpl; [done|].
  destruct (pool !! i) as [r|]; [|apply IH].
  pose proof (step_files c r) as Hstep.
  destruct (step c r) as [c' r']. simpl in Hstep.
  by rewrite IH.
Qed.

Lemma check_all_cache names : ∀ c, (check_all c names).2 = c.
Proof.
  induction names as [|n rest IH]; intros c; [done|].
  cbn [check_all].
  pose proof (CheckIfEpisodeExists_cache c n) as Hc.
  destruct (CheckIfEpisodeExists c n) as [b c1]. cbn [snd] in Hc. subst c1.
  specialize (IH c). by destruct (check_all c rest) as [bs c2].
Qed.

(** A reader scheduled alone runs the statements of
    [CheckIfEpisodeExists]: five moves bring it to its return, with the
    function's answer and the function's cache. *)
Lemma lone_reader_is_CheckIfEpisodeExists c name :
  interleave [0; 0; 0; 0; 0] c [{| query := name; pc := AtRLock |}]
  = ((CheckIfEpisodeExists c name).2,
     [{| query := name; pc := Returned (CheckIfEpisodeExists c name).1 |}]).
Proof.
  unfold CheckIfEpisodeExists. cbn. rewrite !has_RLock.
  destruct (has c (name +:+ ".mp4")); cbn.
  { by rewrite RUnlock_RLock. }
  rewrite !has_RLock.
  destruct (has c (name +:+ ".ts")); cbn.
  { by rewrite RUnlock_RLock. }
  rewrite !has_RLock.
  destruct (has c name); cbn; by rewrite RUnlock_RLock.
Qed.

(** C8. [CheckIfEpisodeExists] has no side effect on the index: after
    any number of calls in a row the cache is the one before them, and
    under any interleaving of the statements of any pool of concurrent
    readers the indexed filenames are those the cache was built with. *)
Theorem CheckIfEpisodeExists_never_mutates :
  (∀ c names, (check_all c names).2 = c)
  ∧ (∀ schedule c pool, files (interleave schedule c pool).1 = files c).
Proof.
  split.
  - intros c names. apply check_all_cache.
  - intros schedule c pool. apply interleave_files.
Qed.

(** C10. Only the entries that are not directories enter the index;
    hence a name all of whose variants, where the directory has them,
    are subdirectories is answered false. *)
Theorem subdirectories_are_not_indexed fs dir c name :
  NewDirectoryCache fs dir = Ok c →
  (∀ key, key ∈ dom (files c)
          ↔ ∃ entries e, ReadDir fs dir = Ok entries ∧ e ∈ entries
                         ∧ Name e = key ∧ IsDir e = false)
  ∧ ((∀ entries e, ReadDir fs dir = Ok entries → e ∈ entries →
                   Name e ∈ variants name → IsDir e = true) →
     (CheckIfEpisodeExists c name).1 = false).
Proof.
  intros Hbuild.
  assert (Hdom : ∀ key, key ∈ dom (files c)
          ↔ ∃ entries e, ReadDir fs dir = Ok entries ∧ e ∈ entries
                         ∧ Name e = key ∧ IsDir e = false).
  { intros key. rewrite (NewDirectoryCache_dom _ _ _ Hbuild).
    rewrite elem_of_list_to_set. unfold filenames.
    destruct (ReadDir fs dir) as [entries|err].
    - rewrite list_elem_of_fmap. split.
      + intros (e & -> & He). apply list_elem_of_filter in He as [Hd He].
        by exists entries, e.
      + intros (entries' & e & [= <-] & He & <- & Hd).
        exists e. split; [done|]. by apply list_elem_of_filter.
    - rewrite elem_of_nil. split; [done|]. by intros (? & ? & ? & _). }
  split; [exact Hdom|].
  intros Hdirs. apply not_true_is_false.
  rewrite CheckIfEpisodeExists_answer, contains_true.
  assert (Hno : ∀ key, key ∈ variants name → key ∉ dom (files c)).
  { intros key Hkey (entries & e & Hread & He & <- & Hd)%Hdom.
    rewrite (Hdirs entries e Hread He Hkey) in Hd. done. }
  unfold variants in Hno.
  intros [H|[H|H]]; revert H; apply Hno; set_solver.
Qed.

Example sample_build :
  NewDirectoryCache sample_fs "downloads" = Ok sample_cache.
Proof. reflexivity. Qed.

Example sample_build_not_a_directory :
  NewDirectoryCache sample_fs "notes.txt" = Err ENOTDIR.
Proof. reflexivity. Qed.

Example sample_build_locked :
  NewDirectoryCache sample_fs "vault" = Err EACCES.
Proof. reflexivity. Qed.

Example sample_answers :
  (check_all sample_cache
     ["Show - S01E01 - GerDub"; "Show - S01E02 - GerDub";
      "Show - S01E03 - GerDub"; "Show - S01E04 - GerDub";
      "Show - S01E05 - GerDub"]).1
  = [true; true; true; false; false].
Proof. vm_compute. reflexivity. Qed.

Lemma CheckIfEpisodeExists_iff_variant_observed_witness :
  NewDirectoryCache sample_fs "downloads" = Ok sample_cache
  ∧ ((CheckIfEpisodeExists sample_cache "Show - S01E02 - GerDub").1 = true
     ↔ "Show - S01E02 - GerDub" +:+ ".mp4" ∈ filenames sample_fs "downloads"
       ∨ "Show - S01E02 - GerDub" +:+ ".ts" ∈ filenames sample_fs "downloads"
       ∨ "Show - S01E02 - GerDub" ∈ filenames sample_fs "downloads")
  ∧ (CheckIfEpisodeExists sample_cache "Show - S01E02 - GerDub").1
    = contains (list_to_set (filenames sample_fs "downloads"))
        "Show - S01E02 - GerDub".
Proof.
  split; [reflexivity|].
  apply (CheckIfEpisodeExists_iff_variant_observed sample_fs "downloads").
  reflexivity.
Defined.

Lemma subdirectories_are_not_indexed_witness :
  (CheckIfEpisodeExists sample_cache "Show - S01E04 - GerDub").1 = false.
Proof.
  apply (subdirectories_are_not_indexed sample_fs "downloads");
    [reflexivity|].
  intros entries e [= <-] He Hname.
  unfold sample_entries in He. unfold variants in Hname.
  repeat (apply elem_of_cons in He as [->|He]); simpl in *;
    [exfalso .. | done | by apply elem_of_nil in He];
    repeat (apply elem_of_cons in Hname as [Hname|Hname]);
    first [discriminate | by apply elem_of_nil in Hname].
Defined.

End DirCacheFacts.

(** ** The entry point and its task queue *)

Module MainFacts.
Import Chan Main.

(** The single-download path reports failure in the exit status. *)
Lemma main_single_status w args :
  Url args ≠ "" → Extractor args ≠ "" →
  main_work w args = 0%Z ↔ handleSingleDownload w args = None.
Proof.
  intros Hurl Hext. unfold main_work.
  apply String.eqb_neq in Hurl, Hext. rewrite Hurl, Hext. simpl.
  destruct (handleSingleDownload w args); split; done.
Qed.

(** The series path does not: whatever [handleSeriesDownload] returns,
    [main] returns and the status is 0. *)
Lemma main_series_status w args :
  Url args ≠ "" → Extractor args = "" → main_work w args = 0%Z.
Proof.
  intros Hurl Hext. unfold main_work.
  apply String.eqb_neq in Hurl. rewrite Hurl, Hext. simpl.
  by destruct (handleSeriesDownload w args).
Qed.

(** C1. The exit status does not tell a failed series download from a
    successful one: with a failing scrape, and with a failure reported
    by the manager, [handleSeriesDownload] returns the error and the
    process still exits with status 0, where a failed single download
    exits with status 1. *)
Theorem main_exits_zero_after_failed_series_download :
  handleSeriesDownload scrape_fails series_args = Some "context canceled"
  ∧ main scrape_fails series_args = 0%Z
  ∧ handleSeriesDownload manager_fails series_args = Some "download failed"
  ∧ main manager_fails series_args = 0%Z
  ∧ handleSingleDownload download_fails single_args = Some "download failed"
  ∧ main download_fails single_args = 1%Z.
Proof. repeat split. Qed.






Example taskChan_fifty_first_send_blocks :
  let tw n := {| tw_Url := "u"; tw_Referer := "r"; tw_Lang := "GerDub";
                 tw_Episode := n |} in
  let q := play start (replicate 50 (Produce (tw "e"))) in
  length (buf (tasks q)) = 50
  ∧ move q (Produce (tw "e51")) = Blocks
  ∧ length (buf (tasks (play q [Feed; Produce (tw "e51")]))) = 50
  ∧ length (submitted (manager (play q [Feed; Produce (tw "e51")]))) = 1.
Proof. vm_compute. repeat split. Qed.

End MainFacts.

(** ** The cadence guard *)

Module CadenceFacts.
Import Cadence.

Lemma beforeRequest_below c T p now :
  c < T →
  beforeRequest {| counter := c; threshold := T; pause := p |} now
  = ({| counter := S c; threshold := T; pause := p |}, now).
Proof.
  intros Hlt. unfold beforeRequest, reached. simpl.
  destruct (Nat.leb_spec T c); [lia|done].
Qed.

Lemma beforeRequest_at c T p now :
  T ≤ c →
  beforeRequest {| counter := c; threshold := T; pause := p |} now
  = ({| counter := 1; threshold := T; pause := p |}, now + p).
Proof.
  intros Hle. unfold beforeRequest, reached. simpl.
  destruct (Nat.leb_spec T c); [done|lia].
Qed.

(** Below the threshold nobody sleeps. *)
Lemma requests_below T p now k : ∀ c,
  c + k ≤ T →
  requests k {| counter := c; threshold := T; pause := p |} now
  = ({| counter := c + k; threshold := T; pause := p |}, now,
     replicate k now).
Proof.
  induction k as [|k IH]; intros c Hle; simpl.
  - by rewrite Nat.add_0_r.
  - rewrite beforeRequest_below by lia.
    rewrite IH by lia. by rewrite Nat.add_succ_r.
Qed.

(** C4. Every [beforeRequest] counts its request, and a call that finds
    the counter at the threshold sleeps for the pause and resets the
    counter to zero before it counts; so from a fresh guard with
    threshold T the first T calls return at once and call T + 1 returns
    one pause later: with threshold 4 the fifth call is the one that
    waits. *)
Theorem beforeRequest_fifth_call_waits :
  (∀ s now,
     counter (beforeRequest s now).1
     = S (counter (if reached s then reset s else s))
     ∧ (beforeRequest s now).2 = (if reached s then sleep s now else now)
     ∧ (reached s = true ↔ threshold s ≤ counter s)
     ∧ counter (reset s) = 0)
  ∧ (∀ T p now,
       requests T {| counter := 0; threshold := T; pause := p |} now
       = ({| counter := T; threshold := T; pause := p |}, now,
          replicate T now)
       ∧ beforeRequest {| counter := T; threshold := T; pause := p |} now
         = ({| counter := 1; threshold := T; pause := p |}, now + p))
  ∧ (∀ p now,
       (requests 5 {| counter := 0; threshold := 4; pause := p |} now).2
       = [now; now; now; now; now + p]).
Proof.
  split; [|split].
  - intros s now. unfold beforeRequest.
    repeat split; try (by destruct (reached s)).
    + unfold reached. by intros ?%Nat.leb_le.
    + unfold reached. by intros ?%Nat.leb_le.
  - intros T p now. split.
    + by rewrite (requests_below T p now T 0) by lia.
    + by apply beforeRequest_at.
  - intros p now. reflexivity.
Qed.

Example cadence_second_round :
  (requests 10 {| counter := 0; threshold := 4; pause := 30 |} 100).2
  = [100; 100; 100; 100; 130; 130; 130; 130; 160; 160].
Proof. reflexivity. Qed.

End CadenceFacts.

(** ** The single-job executor *)

Module ExecutorFacts.
Import Executor.

Section OneJob.
Variable w : World.
Variable j : Job.

Lemma fetches_perform op st : fetches (perform op st) = fetches st.
Proof. done. Qed.

Lemma appends_fetches tmp chunks : ∀ st,
  fetches (foldl (λ st chunk, perform (Append tmp chunk) st) st chunks)
  = fetches st.
Proof.
  induction chunks as [|chunk chunks IH]; intros st; simpl; [done|].
  by rewrite IH.
Qed.

Lemma stream_fetches tmp chunks st :
  fetches (stream tmp chunks st) = fetches st.
Proof. unfold stream. by rewrite appends_fetches. Qed.

(** *** C5: the retry budget *)

Lemma attempt_transient k st reason chunks :
  fetch w k = Transient reason chunks →
  attempt w j k st
  = (Retry reason, stream (temp_of w (output j)) chunks (issue_fetch st)).
Proof. intros H. unfold attempt. by rewrite H. Qed.

Lemma attempts_all_transient left :
  (∀ k, ∃ reason chunks, fetch w k = Transient reason chunks) →
  ∀ k last st,
    ∃ reason,
      (attempts w j left k last st).1 = Failed reason
      ∧ match left with
        | 0 => reason = last
        | S n => ∃ chunks, fetch w (k + n) = Transient reason chunks
        end
      ∧ fetches (attempts w j left k last st).2 = fetches st + left
      ∧ disk (attempts w j left k last st).2 !! temp_of w (output j) = None.
Proof.
  intros Hremote. induction left as [|left IH]; intros k last st.
  - exists last. simpl. repeat split; [lia|]. apply lookup_delete_eq.
  - destruct (Hremote k) as (reason & chunks & Hk).
    cbn [attempts]. rewrite (attempt_transient k st reason chunks Hk).
    destruct (IH (S k) reason (stream (temp_of w (output j)) chunks (issue_fetch st)))
      as (r & Hout & Hlast & Hcount & Hgone).
    exists r. split; [done|]. split; [|split; [|done]].
    + destruct left as [|n].
      * subst r. exists chunks. by rewrite Nat.add_0_r.
      * destruct Hlast as (chunks' & Hlast). exists chunks'.
        by rewrite Nat.add_succ_r.
    + rewrite Hcount, stream_fetches. simpl. lia.
Qed.

(** *** C6: the output path *)

Variable disk0 : gmap string string.
Hypothesis tmp_apart : temp_of w (output j) ≠ output j.

Lemma untouched_begin : untouched w j disk0 (begin disk0).
Proof.
  split; [|done]. apply Forall_cons. split; [by left|apply Forall_nil_2].
Qed.

Lemma untouched_perform op st :
  (∀ d : gmap string string, apply_op d op !! output j = d !! output j) →
  untouched w j disk0 st → untouched w j disk0 (perform op st).
Proof.
  intros Hop [Hhist Hout]. unfold untouched. simpl. rewrite Hop.
  split; [|done].
  apply Forall_cons. split; [|done]. left. by rewrite Hop.
Qed.

Lemma untouched_issue_fetch st :
  untouched w j disk0 st → untouched w j disk0 (issue_fetch st).
Proof. done. Qed.

Lemma create_apart (d : gmap string string) :
  apply_op d (Create (temp_of w (output j))) !! output j = d !! output j.
Proof. simpl. by rewrite lookup_insert_ne. Qed.

Lemma append_apart chunk (d : gmap string string) :
  apply_op d (Append (temp_of w (output j)) chunk) !! output j
  = d !! output j.
Proof. simpl. by rewrite lookup_insert_ne. Qed.

Lemma replace_apart content (d : gmap string string) :
  apply_op d (Replace (temp_of w (output j)) content) !! output j
  = d !! output j.
Proof. simpl. by rewrite lookup_insert_ne. Qed.

Lemma remove_apart (d : gmap string string) :
  apply_op d (Remove (temp_of w (output j))) !! output j = d !! output j.
Proof. simpl. by rewrite lookup_delete_ne. Qed.

Lemma untouched_appends chunks : ∀ st,
  untouched w j disk0 st →
  untouched w j disk0
    (foldl (λ st chunk, perform (Append (temp_of w (output j)) chunk) st)
           st chunks).
Proof.
  induction chunks as [|chunk chunks IH]; intros st Hst; simpl; [done|].
  apply IH, untouched_perform; [apply append_apart|done].
Qed.

Lemma untouched_stream chunks st :
  untouched w j disk0 st →
  untouched w j disk0 (stream (temp_of w (output j)) chunks st).
Proof.
  intros Hst. unfold stream.
  apply untouched_appends, untouched_perform; [apply create_apart|done].
Qed.

(** The temporary file holds what was streamed into it. *)
Lemma appends_content chunks : ∀ st acc,
  disk st !! temp_of w (output j) = Some acc →
  disk (foldl (λ st chunk, perform (Append (temp_of w (output j)) chunk) st)
              st chunks) !! temp_of w (output j)
  = Some (foldl String.append acc chunks).
Proof.
  induction chunks as [|chunk chunks IH]; intros st acc Hacc; simpl; [done|].
  apply IH. simpl. rewrite Hacc. simpl. apply lookup_insert_eq.
Qed.

Lemma stream_content chunks st :
  disk (stream (temp_of w (output j)) chunks st) !! temp_of w (output j)
  = Some (foldl String.append "" chunks).
Proof.
  unfold stream. apply appends_content. simpl. apply lookup_insert_eq.
Qed.

Lemma place_settled st content :
  untouched w j disk0 st →
  disk st !! temp_of w (output j) = Some content →
  fully_formed w content →
  match place w j st with
  | (Succeeded, st') => placed w j disk0 st'
  | (_, st') => untouched w j disk0 st'
  end.
Proof.
  intros [Hhist Hout] Htmp Hwhole. unfold place.
  destruct (bool_decide (is_Some (disk st !! output j)) && negb (overwrite w));
    [done|].
  unfold placed. simpl. rewrite Htmp.
  assert (Hnew : <[output j := content]>
                   (delete (temp_of w (output j)) (disk st)) !! output j
                 = Some content) by apply lookup_insert_eq.
  split.
  - apply Forall_cons. split; [|done]. right. by exists content.
  - exists content. split; [done|]. split; [done|].
    rewrite lookup_insert_ne by done. apply lookup_delete_eq.
Qed.

Lemma attempt_settled k st :
  untouched w j disk0 st →
  match attempt w j k st with
  | (Succeeded, st') => placed w j disk0 st'
  | (_, st') => untouched w j disk0 st'
  end.
Proof.
  intros Hst. unfold attempt.
  destruct (fetch w k) as [chunks [|]|reason chunks|reason|chunks] eqn:Hk.
  - destruct (remux w (foldl String.append "" chunks)) as [content|] eqn:Hmux.
    + apply (place_settled _ content).
      * apply untouched_perform; [apply replace_apart|].
        by apply untouched_stream, untouched_issue_fetch.
      * simpl. apply lookup_insert_eq.
      * exists k. by rewrite Hk.
    + by apply untouched_stream, untouched_issue_fetch.
  - apply (place_settled _ (foldl String.append "" chunks)).
    + by apply untouched_stream, untouched_issue_fetch.
    + apply stream_content.
    + exists k. by rewrite Hk.
  - by apply untouched_stream, untouched_issue_fetch.
  - by apply untouched_issue_fetch.
  - by apply untouched_stream, untouched_issue_fetch.
Qed.

Lemma untouched_cleanup st :
  untouched w j disk0 st →
  untouched w j disk0 (perform (Remove (temp_of w (output j))) st)
  ∧ disk (perform (Remove (temp_of w (output j))) st)
      !! temp_of w (output j) = None.
Proof.
  intros Hst. split.
  - apply untouched_perform; [apply remove_apart|done].
  - simpl. apply lookup_delete_eq.
Qed.

Lemma attempts_settled left : ∀ k last st,
  untouched w j disk0 st →
  match attempts w j left k last st with
  | (Completed, st') => placed w j disk0 st'
  | (_, st') =>
      untouched w j disk0 st' ∧ disk st' !! temp_of w (output j) = None
  end.
Proof.
  induction left as [|left IH]; intros k last st Hst; cbn [attempts].
  - by apply untouched_cleanup.
  - pose proof (attempt_settled k st Hst) as Hturn.
    destruct (attempt w j k st) as [[|reason|reason|] st'].
    + done.
    + by apply IH.
    + by apply untouched_cleanup.
    + by apply untouched_cleanup.
Qed.

Lemma execute_settled :
  match execute w j (begin disk0) with
  | (Completed, st') => placed w j disk0 st'
  | (_, st') => untouched w j disk0 st'
  end.
Proof.
  unfold execute.
  destruct (skipIfExists j && DirCache.contains (indexed w) (name j)).
  - apply untouched_begin.
  - pose proof (attempts_settled (S (retryBudget j)) 0 "" (begin disk0)
                  untouched_begin) as H.
    destruct (attempts w j (S (retryBudget j)) 0 "" (begin disk0))
      as [[| | |] st']; tauto.
Qed.

End OneJob.

(** C5. A job that is not skipped and whose every fetch fails
    transiently makes exactly [retryBudget + 1] fetches, ends Failed
    with the reason of the last of them, and leaves no temporary file
    on disk. *)
Theorem always_transient_job_exhausts_budget w j st :
  (∀ k, ∃ reason chunks, fetch w k = Transient reason chunks) →
  skipIfExists j && DirCache.contains (indexed w) (name j) = false →
  ∃ reason chunks,
    fetch w (retryBudget j) = Transient reason chunks
    ∧ (execute w j st).1 = Failed reason
    ∧ fetches (execute w j st).2 = fetches st + (retryBudget j + 1)
    ∧ disk (execute w j st).2 !! temp_of w (output j) = None.
Proof.
  intros Hremote Hrun. unfold execute. rewrite Hrun.
  destruct (attempts_all_transient w j (S (retryBudget j)) Hremote 0 "" st)
    as (reason & Hout & (chunks & Hlast) & Hcount & Hgone).
  exists reason, chunks. simpl in Hlast.
  repeat split; [done..| |done]. rewrite Hcount. lia.
Qed.

Lemma always_transient_job_exhausts_budget_witness :
  ∃ reason chunks,
    fetch flaky (retryBudget episode) = Transient reason chunks
    ∧ (execute flaky episode (begin ∅)).1 = Failed reason
    ∧ fetches (execute flaky episode (begin ∅)).2
      = fetches (begin ∅) + (retryBudget episode + 1)
    ∧ disk (execute flaky episode (begin ∅)).2
        !! temp_of flaky (output episode) = None.
Proof.
  apply (always_transient_job_exhausts_budget flaky episode (begin ∅)).
  - intros k. by exists "connection reset", ["seg0"].
  - reflexivity.
Defined.

Example flaky_episode :
  (execute flaky episode (begin ∅)).1 = Failed "connection reset"
  ∧ fetches (execute flaky episode (begin ∅)).2 = 3
  ∧ disk (execute flaky episode (begin ∅)).2 = ∅.
Proof. vm_compute. repeat split. Qed.

Example recovering_episode :
  (execute recovering episode (begin ∅)).1 = Completed
  ∧ fetches (execute recovering episode (begin ∅)).2 = 3
  ∧ disk (execute recovering episode (begin ∅)).2
    = {[ "downloads/Show - S01E01 - GerDub.mp4" := "mp4:seg0seg1" ]}.
Proof. vm_compute. repeat split. Qed.

End ExecutorFacts.

(** ** Jobs executed side by side *)

Module RunFacts.
Import Executor Run.

(** *** The steps of one job are [Executor.execute] *)

Section Alone.
Variable w : World.
Variable j : Job.

Lemma reaches_refl ph d : reaches w j ph d ph d.
Proof. by exists 0. Qed.

Lemma reaches_step ph d ph' d' ph'' d'' :
  step w j ph d = (ph', d') → reaches w j ph' d' ph'' d'' →
  reaches w j ph d ph'' d''.
Proof. intros Hstep [n Hn]. exists (S n). simpl. by rewrite Hstep. Qed.

Lemma reaches_trans ph d ph' d' ph'' d'' :
  reaches w j ph d ph' d' → reaches w j ph' d' ph'' d'' →
  reaches w j ph d ph'' d''.
Proof.
  intros [n Hn]. revert ph d Hn.
  induction n as [|n IH]; intros ph d; simpl.
  - by intros [= -> ->].
  - destruct (step w j ph d) as [ph1 d1] eqn:Hstep. intros Hn Hrest.
    eapply reaches_step; [done|]. by apply IH.
Qed.

Lemma writing_reaches left k next chunks : ∀ st,
  reaches w j (Writing left k chunks next) (disk st)
          (Writing left k [] next)
          (disk (foldl (λ st chunk,
                          perform (Append (temp_of w (output j)) chunk) st)
                       st chunks)).
Proof.
  induction chunks as [|chunk chunks IH]; intros st; simpl.
  - apply reaches_refl.
  - eapply reaches_step; [done|].
    apply (IH (perform (Append (temp_of w (output j)) chunk) st)).
Qed.

Lemma stream_reaches left k next chunks st :
  reaches w j (Writing left k chunks next)
          (apply_op (disk st) (Create (temp_of w (output j))))
          (Writing left k [] next)
          (disk (stream (temp_of w (output j)) chunks st)).
Proof.
  apply (writing_reaches left k next chunks
           (perform (Create (temp_of w (output j))) st)).
Qed.

Lemma cleaning_reaches o st :
  reaches w j (Cleaning o) (disk st) (Finished o)
          (disk (perform (Remove (temp_of w (output j))) st)).
Proof. eapply reaches_step; [done|]. apply reaches_refl. Qed.

Lemma placing_reaches st :
  reaches w j Placing (disk st)
          (Finished
             match place w j st with
             | (Succeeded, _) => Completed
             | (Retry reason, _) | (GiveUp reason, _) => Failed reason
             | (Abandon, _) => Stopped
             end)
          (disk
             match place w j st with
             | (Succeeded, st') => st'
             | (_, st') => perform (Remove (temp_of w (output j))) st'
             end).
Proof.
  unfold place.
  destruct (bool_decide (is_Some (disk st !! output j)) && negb (overwrite w))
    eqn:Hway.
  - eapply reaches_step; [simpl; by rewrite Hway|]. apply cleaning_reaches.
  - eapply reaches_step; [simpl; by rewrite Hway|]. apply reaches_refl.
Qed.

Lemma attempts_reaches left : ∀ k last st,
  reaches w j (Ready left k last) (disk st)
          (Finished (attempts w j left k last st).1)
          (disk (attempts w j left k last st).2).
Proof.
  induction left as [|left IH]; intros k last st.
  - eapply reaches_step; [done|]. apply reaches_refl.
  - cbn [attempts]. unfold attempt.
    destruct (fetch w k) as [chunks segmented|reason chunks|reason|chunks]
      eqn:Hfetch.
    + eapply reaches_step; [simpl; by rewrite Hfetch|].
      eapply reaches_trans; [apply (stream_reaches _ _ _ _ (issue_fetch st))|].
      destruct segmented.
      * destruct (remux w (foldl String.append "" chunks)) as [content|]
          eqn:Hremux.
        -- eapply reaches_step; [simpl; by rewrite Hremux|].
           pose proof (placing_reaches
                         (perform (Replace (temp_of w (output j)) content)
                            (stream (temp_of w (output j)) chunks
                               (issue_fetch st)))) as Hplace.
           unfold place in *.
           by destruct (bool_decide _ && negb _).
        -- eapply reaches_step; [simpl; by rewrite Hremux|]. apply IH.
      * eapply reaches_step; [done|].
        pose proof (placing_reaches
                      (stream (temp_of w (output j)) chunks (issue_fetch st)))
          as Hplace.
        unfold place in *.
        by destruct (bool_decide _ && negb _).
    + eapply reaches_step; [simpl; by rewrite Hfetch|].
      eapply reaches_trans; [apply (stream_reaches _ _ _ _ (issue_fetch st))|].
      eapply reaches_step; [done|]. apply IH.
    + eapply reaches_step; [simpl; by rewrite Hfetch|].
      apply (cleaning_reaches _ (issue_fetch st)).
    + eapply reaches_step; [simpl; by rewrite Hfetch|].
      eapply reaches_trans; [apply (stream_reaches _ _ _ _ (issue_fetch st))|].
      eapply reaches_step; [done|]. apply cleaning_reaches.
Qed.

(** A job that has the disk to itself ends, step by step, with the
    outcome and on the disk of [Executor.execute]. *)
Lemma steps_are_execute st :
  ∃ n, steps w j n Starting (disk st)
       = (Finished (execute w j st).1, disk (execute w j st).2).
Proof.
  change (reaches w j Starting (disk st) (Finished (execute w j st).1)
                  (disk (execute w j st).2)).
  unfold execute.
  destruct (skipIfExists j && DirCache.contains (indexed w) (name j))
    eqn:Hskip.
  - eapply reaches_step; [simpl; by rewrite Hskip|]. apply reaches_refl.
  - eapply reaches_step; [simpl; by rewrite Hskip|]. apply attempts_reaches.
Qed.

End Alone.

(** *** What a step does to the disk *)








(** *** Paths apart *)


(** *** The run *)







(** Two jobs whose steps alternate both complete, each with its own
    whole result at its own path and no temporary file left. *)
Example alternating_run :
  phases (run two_episodes alternating (start two_episodes ∅))
  = [Finished Completed; Finished Completed]
  ∧ files (run two_episodes alternating (start two_episodes ∅))
      !! "downloads/Show - S01E01 - GerDub.mp4" = Some "mp4:seg0seg1"
  ∧ files (run two_episodes alternating (start two_episodes ∅))
      !! "downloads/Show - S01E02 - GerDub.mp4" = Some "b1b2"
  ∧ files (run two_episodes alternating (start two_episodes ∅))
      !! "downloads/Show - S01E01 - GerDub.mp4.part" = None
  ∧ files (run two_episodes alternating (start two_episodes ∅))
      !! "downloads/Show - S01E02 - GerDub.mp4.part" = None.
Proof. repeat split; by vm_compute. Qed.

(** The paths have to be apart. Two jobs that stream into the same
    temporary file mix their chunks in it, and the rename of the first
    puts the mixture at its final path, though the only body its remote
    serves is another. *)
Example clashing_run :
  temporary <$> clashing = ["downloads/tmp"; "downloads/tmp"]
  ∧ files (run clashing clash (start clashing ∅))
      !! "downloads/Show - S01E01 - GerDub.mp4" = Some "b1a1a2"
  ∧ (∀ k, payload (careless ["a1"; "a2"]) (fetch (careless ["a1"; "a2"]) k)
          = Some "a1a2").
Proof. repeat split; by vm_compute. Qed.

End RunFacts.

(** ** Cancellation, on the logical clock *)

Module SchedulerFacts.
Import Cadence Executor Scheduler.

(** *** One suspension point *)

Lemma suspend_never now natural :
  suspend None now natural = Elapsed (now + natural).
Proof. done. Qed.

Lemma suspend_cut fires now natural :
  now ≤ fires → fires < now + natural →
  suspend (Some fires) now natural = Interrupted fires.
Proof.
  intros Hle Hlt. unfold suspend.
  destruct (Nat.ltb_spec fires (now + natural)) as [_|?]; [|lia].
  rewrite orb_true_r. f_equal. lia.
Qed.

Lemma suspend_fired fires now natural :
  fires ≤ now → suspend (Some fires) now natural = Interrupted now.
Proof.
  intros Hle. unfold suspend.
  destruct (Nat.leb_spec fires now) as [_|?]; [|lia].
  cbn. f_equal. lia.
Qed.

Lemma suspend_late fires now natural :
  now < fires → now + natural ≤ fires →
  suspend (Some fires) now natural = Elapsed (now + natural).
Proof.
  intros Hlt Hle. unfold suspend.
  destruct (Nat.leb_spec fires now) as [?|_]; [lia|].
  by destruct (Nat.ltb_spec fires (now + natural)) as [?|_]; [lia|].
Qed.

Lemma suspend_prompt ctx now natural :
  prompt ctx now (suspend ctx now natural).
Proof.
  unfold suspend. destruct ctx as [fires|].
  - destruct (Nat.leb_spec fires now), (Nat.ltb_spec fires (now + natural));
      cbn [orb prompt]; eauto.
    split; [lia|]. intros ? [= <-]. lia.
  - split; [lia|done].
Qed.

Lemma suspend_elapsed ctx now natural time :
  suspend ctx now natural = Elapsed time →
  suspend None now natural = Elapsed time.
Proof.
  unfold suspend. destruct ctx as [fires|]; [|done].
  by destruct (_ || _).
Qed.

(** Waits follow one another: a wait that ran its course, and then a
    call that returned promptly from where it ended. *)
Lemma prompt_then ctx now time r :
  prompt ctx now (Elapsed time) → prompt ctx time r → prompt ctx now r.
Proof.
  intros [Hle Hbound]. destruct r as [time'|time']; cbn.
  - intros [Hle' Hbound']. split; [lia|].
    intros fires Hctx.
    specialize (Hbound fires Hctx). specialize (Hbound' fires Hctx). lia.
  - intros (fires & Hctx & ->). exists fires. split; [done|].
    specialize (Hbound fires Hctx). lia.
Qed.

Lemma prompt_refl ctx now : prompt ctx now (Elapsed now).
Proof. split; [done|]. intros. lia. Qed.

Lemma prompt_bound fires now r :
  prompt (Some fires) now r → now ≤ at_time r ≤ Nat.max now fires.
Proof.
  destruct r as [time|time]; cbn.
  - intros [Hle Hbound]. specialize (Hbound fires eq_refl). lia.
  - intros (? & [= <-] & ->). lia.
Qed.

(** *** The reads of a body *)

Lemma reads_prompt ctx refill chunks : ∀ i now,
  prompt ctx now (reads ctx refill chunks i now).2.
Proof.
  induction chunks as [|chunk rest IH]; intros i now; cbn [reads].
  - apply prompt_refl.
  - unfold metered_read.
    pose proof (suspend_prompt ctx now (refill i)) as Hwait.
    destruct (suspend ctx now (refill i)) as [time|time]; [|done].
    specialize (IH (S i) time).
    destruct (reads ctx refill rest (S i) time) as [got r].
    by eapply prompt_then.
Qed.

Lemma reads_elapsed ctx refill chunks : ∀ i now got time,
  reads ctx refill chunks i now = (got, Elapsed time) →
  reads None refill chunks i now = (got, Elapsed time).
Proof.
  induction chunks as [|chunk rest IH]; intros i now got time;
    cbn [reads]; [done|].
  unfold metered_read.
  destruct (suspend ctx now (refill i)) as [woke|woke] eqn:Hwait; [|done].
  rewrite (suspend_elapsed _ _ _ _ Hwait).
  destruct (reads ctx refill rest (S i) woke) as [got' r] eqn:Hrest.
  intros [= <- ->]. by rewrite (IH _ _ _ _ Hrest).
Qed.

(** *** One fetch *)

Lemma meets_prompt ctx w p k now : prompt ctx now (meets ctx w p k now).2.
Proof.
  unfold meets, remote_call.
  pose proof (suspend_prompt ctx now (latency p k)) as Hcall.
  destruct (suspend ctx now (latency p k)) as [answered|time]; [|done].
  pose proof (reads_prompt ctx (refill_in p k) (chunks_of (fetch w k)) 0
                answered) as Hreads.
  destruct (reads ctx (refill_in p k) (chunks_of (fetch w k)) 0 answered)
    as [got [time|time]]; by eapply prompt_then.
Qed.

Lemma meets_elapsed ctx w p k now f time :
  meets ctx w p k now = (f, Elapsed time) →
  meets None w p k now = (f, Elapsed time).
Proof.
  unfold meets, remote_call.
  destruct (suspend ctx now (latency p k)) as [answered|?] eqn:Hcall;
    [|done].
  rewrite (suspend_elapsed _ _ _ _ Hcall).
  destruct (reads ctx (refill_in p k) (chunks_of (fetch w k)) 0 answered)
    as [got [time'|time']] eqn:Hreads; [|done].
  intros [= <- ->]. by rewrite (reads_elapsed _ _ _ _ _ _ _ Hreads).
Qed.

Lemma meets_interrupted ctx w p k now f time :
  meets ctx w p k now = (f, Interrupted time) → ∃ got, f = Cancelled got.
Proof.
  unfold meets, remote_call.
  destruct (suspend ctx now (latency p k)) as [answered|?].
  - destruct (reads ctx (refill_in p k) (chunks_of (fetch w k)) 0 answered)
      as [got [time'|time']]; [done|].
    intros [= <- _]. by exists got.
  - intros [= <- _]. by exists [].
Qed.

Lemma meets_never w p k now :
  ∃ time, meets None w p k now = (fetch w k, Elapsed time).
Proof.
  unfold meets, remote_call. rewrite suspend_never.
  pose proof (reads_prompt None (refill_in p k) (chunks_of (fetch w k)) 0
                (now + latency p k)) as Hreads.
  destruct (reads None (refill_in p k) (chunks_of (fetch w k)) 0
              (now + latency p k)) as [got [time|time]].
  - by exists time.
  - by destruct Hreads as (? & [=] & _).
Qed.

(** The attempt that meets the fetch its world serves is the attempt of
    [Executor]. *)
Lemma attempt_served w j k st :
  attempt (served w k (fetch w k)) j k st = attempt w j k st.
Proof. unfold attempt, served. cbn. by rewrite Nat.eqb_refl. Qed.

(** *** One job *)

Lemma attempts_prompt ctx w j p left : ∀ k last st now,
  prompt ctx now (attempts_until ctx w j p left k last st now).2.
Proof.
  induction left as [|left IH]; intros k last st now; cbn [attempts_until].
  - apply prompt_refl.
  - unfold cadence_pause.
    pose proof (suspend_prompt ctx now
                  (if reached (guard p k) then pause (guard p k) else 0))
      as Hguard.
    destruct (suspend ctx now _) as [woke|time]; [|done].
    pose proof (meets_prompt ctx w p k woke) as Hmeets.
    destruct (meets ctx w p k woke) as [f r].
    destruct (attempt (served w k f) j k st) as [a st'].
    cbn [snd] in Hmeets.
    destruct r as [time|time]; [|by eapply prompt_then].
    assert (Hhere : prompt ctx now (Elapsed time)) by by eapply prompt_then.
    destruct a as [|reason|reason|]; try done.
    destruct left as [|left']; [done|].
    unfold backoff_sleep.
    pose proof (suspend_prompt ctx time
                  (backoff_delay (backoff_base p) (backoff_ceiling p) k))
      as Hsleep.
    destruct (suspend ctx time _) as [time'|time'].
    + eapply prompt_then; [|apply IH]. by eapply prompt_then.
    + by eapply prompt_then.
Qed.

Lemma attempts_elapsed ctx w j p left : ∀ k last st now o st' time,
  attempts_until ctx w j p left k last st now = (o, st', Elapsed time) →
  attempts_until None w j p left k last st now = (o, st', Elapsed time).
Proof.
  induction left as [|left IH]; intros k last st now o st' time;
    cbn [attempts_until]; [done|].
  unfold cadence_pause.
  destruct (suspend ctx now _) as [woke|?] eqn:Hguard; [|done].
  rewrite (suspend_elapsed _ _ _ _ Hguard).
  destruct (meets ctx w p k woke) as [f [met|met]] eqn:Hmeets.
  - rewrite (meets_elapsed _ _ _ _ _ _ _ Hmeets).
    destruct (attempt (served w k f) j k st) as [[|reason|reason|] st1];
      try done.
    destruct left as [|left']; [done|].
    unfold backoff_sleep.
    destruct (suspend ctx met _) as [slept|?] eqn:Hsleep; [|done].
    rewrite (suspend_elapsed _ _ _ _ Hsleep). apply IH.
  - by destruct (attempt (served w k f) j k st).
Qed.

Lemma attempts_interrupted ctx w j p left : ∀ k last st now o st' time,
  attempts_until ctx w j p left k last st now = (o, st', Interrupted time) →
  o = Stopped ∧ disk st' !! temp_of w (output j) = None.
Proof.
  induction left as [|left IH]; intros k last st now o st' time;
    cbn [attempts_until]; [done|].
  unfold cadence_pause.
  destruct (suspend ctx now _) as [woke|?].
  - destruct (meets ctx w p k woke) as [f [met|met]].
    + destruct (attempt (served w k f) j k st) as [[|reason|reason|] st1];
        try done.
      destruct left as [|left']; [done|].
      unfold backoff_sleep.
      destruct (suspend ctx met _) as [slept|?].
      * apply IH.
      * intros [= <- <- _]. split; [done|]. cbn. apply lookup_delete_eq.
    + destruct (attempt (served w k f) j k st) as [a st1].
      intros [= <- <- _]. split; [done|]. cbn. apply lookup_delete_eq.
  - intros [= <- <- _]. split; [done|]. cbn. apply lookup_delete_eq.
Qed.

(** Without a signal the clocked attempts are those of [Executor]. *)
Lemma attempts_never w j p left : ∀ k last st now,
  (attempts_until None w j p left k last st now).1
  = attempts w j left k last st.
Proof.
  induction left as [|left IH]; intros k last st now;
    cbn [attempts_until attempts]; [done|].
  unfold cadence_pause. rewrite suspend_never.
  destruct (meets_never w p k
              (now + (if reached (guard p k) then pause (guard p k) else 0)))
    as [met ->].
  rewrite attempt_served.
  destruct (attempt w j k st) as [[|reason|reason|] st1]; try done.
  destruct left as [|left']; [done|].
  unfold backoff_sleep. rewrite suspend_never. apply IH.
Qed.

Lemma execute_prompt ctx w j p st now :
  prompt ctx now (execute_until ctx w j p st now).2.
Proof.
  unfold execute_until.
  destruct (skipIfExists j && _); [apply prompt_refl|apply attempts_prompt].
Qed.

Lemma execute_elapsed ctx w j p st now o st' time :
  execute_until ctx w j p st now = (o, st', Elapsed time) →
  execute_until None w j p st now = (o, st', Elapsed time).
Proof.
  unfold execute_until.
  destruct (skipIfExists j && _); [done|apply attempts_elapsed].
Qed.

Lemma execute_interrupted ctx w j p st now o st' time :
  execute_until ctx w j p st now = (o, st', Interrupted time) →
  o = Stopped ∧ disk st' !! temp_of w (output j) = None.
Proof.
  unfold execute_until.
  destruct (skipIfExists j && _); [done|apply attempts_interrupted].
Qed.

(** Without a signal the clocked executor is [Executor.execute]. *)
Lemma execute_never w j p st now :
  (execute_until None w j p st now).1 = execute w j st.
Proof.
  unfold execute_until, execute.
  destruct (skipIfExists j && _); [done|apply attempts_never].
Qed.

(** *** One worker *)

Lemma worker_prompt ctx lane disk0 : ∀ now,
  prompt ctx now (worker ctx lane disk0 now).2.
Proof.
  induction lane as [|q rest IH]; intros now; cbn [worker].
  - apply prompt_refl.
  - unfold queue_consume.
    pose proof (suspend_prompt ctx now (next_in (pace q))) as Hpull.
    destruct (suspend ctx now (next_in (pace q))) as [pulled|time]; [|done].
    pose proof (execute_prompt ctx (world q) (job q) (pace q) (begin disk0)
                  pulled) as Hjob.
    destruct (execute_until ctx (world q) (job q) (pace q) (begin disk0)
                pulled) as [[o st'] [time|time]]; cbn [snd] in Hjob.
    + specialize (IH time).
      destruct (worker ctx rest disk0 time) as [os r]. cbn [snd] in *.
      eapply prompt_then; [|done]. by eapply prompt_then.
    + by eapply prompt_then.
Qed.

Lemma worker_elapsed ctx lane disk0 : ∀ now os time,
  worker ctx lane disk0 now = (os, Elapsed time) →
  worker None lane disk0 now = (os, Elapsed time).
Proof.
  induction lane as [|q rest IH]; intros now os time; cbn [worker]; [done|].
  unfold queue_consume.
  destruct (suspend ctx now (next_in (pace q))) as [pulled|?] eqn:Hpull;
    [|done].
  rewrite (suspend_elapsed _ _ _ _ Hpull).
  destruct (execute_until ctx (world q) (job q) (pace q) (begin disk0) pulled)
    as [[o st'] [ended|ended]] eqn:Hjob; [|done].
  rewrite (execute_elapsed _ _ _ _ _ _ _ _ _ Hjob).
  destruct (worker ctx rest disk0 ended) as [os' r] eqn:Hrest.
  intros [= <- ->]. by rewrite (IH _ _ _ Hrest).
Qed.

(** What a worker reports under the signal: the outcomes of the jobs it
    had finished, which are those the jobs have without the signal, and
    then [Stopped] for the job the signal met, if it met one. *)
Lemma worker_cut ctx lane disk0 : ∀ now,
  ∃ n extra,
    (worker ctx lane disk0 now).1
    = (take n (worker None lane disk0 now).1 ++ extra)%list
    ∧ (extra = [] ∨ extra = [Stopped]).
Proof.
  induction lane as [|q rest IH]; intros now; cbn [worker].
  - exists 0, []. split; [done|by left].
  - unfold queue_consume. rewrite suspend_never.
    destruct (suspend ctx now (next_in (pace q))) as [pulled|?] eqn:Hpull.
    + apply suspend_elapsed in Hpull. rewrite suspend_never in Hpull.
      injection Hpull as <-.
      destruct (execute_until ctx (world q) (job q) (pace q) (begin disk0)
                  (now + next_in (pace q)))
        as [[o st'] [ended|ended]] eqn:Hjob.
      * rewrite (execute_elapsed _ _ _ _ _ _ _ _ _ Hjob).
        destruct (IH ended) as (n & extra & Hos & Hextra).
        destruct (worker ctx rest disk0 ended) as [os r].
        destruct (worker None rest disk0 ended) as [os' r'].
        cbn [fst] in *. exists (S n), extra. split; [by rewrite Hos|done].
      * destruct (execute_interrupted _ _ _ _ _ _ _ _ _ Hjob) as [-> _].
        exists 0, [Stopped]. split; [done|by right].
    + exists 0, []. split; [done|by left].
Qed.

(** *** The RunResult *)

Lemma record_counts os : ∀ r,
  completed (foldr record r os)
  = completed r + completed (foldr record nothing os)
  ∧ skipped (foldr record r os) = skipped r + skipped (foldr record nothing os)
  ∧ failed (foldr record r os) = failed r + failed (foldr record nothing os).
Proof.
  induction os as [|o os IH]; intros r; cbn [foldr].
  - cbn. lia.
  - destruct (IH r) as (Hc & Hs & Hf).
    destruct o; cbn; rewrite ?Hc, ?Hs, ?Hf; lia.
Qed.

Lemma record_counts_take os : ∀ n,
  completed (foldr record nothing (take n os))
  ≤ completed (foldr record nothing os)
  ∧ skipped (foldr record nothing (take n os))
    ≤ skipped (foldr record nothing os)
  ∧ failed (foldr record nothing (take n os))
    ≤ failed (foldr record nothing os).
Proof.
  induction os as [|o os IH]; intros [|n]; cbn [take foldr];
    try (cbn; lia).
  destruct (IH n) as (Hc & Hs & Hf). destruct o; cbn; lia.
Qed.

Lemma report_counts ended r :
  completed (report ended r)
  = completed r + completed (foldr record nothing ended.1)
  ∧ skipped (report ended r)
    = skipped r + skipped (foldr record nothing ended.1)
  ∧ failed (report ended r)
    = failed r + failed (foldr record nothing ended.1).
Proof.
  unfold report. destruct (record_counts ended.1 r) as (Hc & Hs & Hf).
  by destruct ended.2.
Qed.

Lemma record_sticky os r :
  cancelled r = true → cancelled (foldr record r os) = true.
Proof.
  intros Hr. induction os as [|o os IH]; [done|].
  cbn [foldr]. by destruct o.
Qed.

Lemma report_sticky ended r :
  cancelled r = true → cancelled (report ended r) = true.
Proof.
  intros Hr. unfold report.
  destruct ended.2; [by apply record_sticky|done].
Qed.

(** The signal adds to none of the three counts. *)
Lemma run_counts ctx lanes disk0 now :
  completed (run ctx lanes disk0 now).1
  ≤ completed (run None lanes disk0 now).1
  ∧ skipped (run ctx lanes disk0 now).1 ≤ skipped (run None lanes disk0 now).1
  ∧ failed (run ctx lanes disk0 now).1 ≤ failed (run None lanes disk0 now).1.
Proof.
  unfold run. cbn [fst].
  induction lanes as [|lane lanes IH]; [done|].
  rewrite !fmap_cons. cbn [foldr].
  destruct IH as (IHc & IHs & IHf).
  destruct (report_counts (worker ctx lane disk0 now)
              (foldr report nothing
                 ((λ lane, worker ctx lane disk0 now) <$> lanes)))
    as (-> & -> & ->).
  destruct (report_counts (worker None lane disk0 now)
              (foldr report nothing
                 ((λ lane, worker None lane disk0 now) <$> lanes)))
    as (-> & -> & ->).
  destruct (worker_cut ctx lane disk0 now) as (n & extra & -> & Hextra).
  rewrite foldr_app.
  destruct (record_counts (take n (worker None lane disk0 now).1)
              (foldr record nothing extra)) as (-> & -> & ->).
  destruct (record_counts_take (worker None lane disk0 now).1 n)
    as (Hc & Hs & Hf).
  destruct Hextra as [->| ->]; cbn; lia.
Qed.

(** The run returns by the time the signal fires. *)
Lemma run_prompt fires lanes disk0 now :
  now ≤ (run (Some fires) lanes disk0 now).2 ≤ Nat.max now fires.
Proof.
  unfold run. cbn [snd].
  induction lanes as [|lane lanes IH]; cbn; [lia|].
  pose proof (prompt_bound fires now _
                (worker_prompt (Some fires) lane disk0 now)).
  lia.
Qed.

(** Either the signal interrupted a worker, or no wait of the run
    outlasts it. *)
Lemma run_fate fires lanes disk0 now :
  (cancelled (run (Some fires) lanes disk0 now).1 = true
   ∧ Nat.max now fires ≤ (run (Some fires) lanes disk0 now).2)
  ∨ (run None lanes disk0 now).2 ≤ Nat.max now fires.
Proof.
  unfold run. cbn [fst snd].
  induction lanes as [|lane lanes IH]; [right; cbn; lia|].
  rewrite !fmap_cons. cbn [foldr].
  pose proof (worker_prompt (Some fires) lane disk0 now) as Hprompt.
  destruct (worker (Some fires) lane disk0 now) as [os [time|time]] eqn:Hw.
  - rewrite (worker_elapsed _ _ _ _ _ _ Hw). cbn [snd compose at_time].
    cbn [snd] in Hprompt. destruct Hprompt as [_ Hbound].
    specialize (Hbound fires eq_refl).
    destruct IH as [[Hc Ht]|Hnone].
    + left. split; [by apply report_sticky|]. cbn in *. lia.
    + right. cbn in *. lia.
  - left. cbn [snd] in Hprompt.
    destruct Hprompt as (? & [= <-] & ->).
    split; [done|]. cbn. lia.
Qed.

(** Without a signal the guard is [Cadence.beforeRequest]. *)
Lemma beforeRequest_never s now :
  beforeRequest_until None s now
  = ((beforeRequest s now).1, Elapsed (beforeRequest s now).2).
Proof.
  unfold beforeRequest_until, cadence_pause, beforeRequest, sleep.
  rewrite suspend_never. destruct (reached s); cbn; [done|].
  by rewrite Nat.add_0_r.
Qed.

(** C9. The run-scoped cancellation signal, on the logical clock. Every
    suspension point (queue submission, queue consumption, the metered
    read, the remote call, the cadence pause, the backoff sleep) that
    the signal meets before its wait is over returns when the signal
    fires, not at the end of its natural duration; a wait that is over
    by then runs its course. A job returns by the time the signal
    fires: a job the signal meets returns at that moment with the
    outcome [Stopped], which is none of Completed, Skipped and Failed,
    and without its temporary file; a job that ran its course has the
    outcome, the disk and the return time it has without the signal,
    the outcome and disk of [Executor.execute]. The run returns by the
    time the signal fires; a signal that fires before the run would
    have ended sets the cancellation indicator of the RunResult and the
    run returns at that moment; and the signal adds to none of the
    three counts: no job is counted as failed, completed or skipped
    that is not counted so without the signal. *)
Theorem cancellation_is_prompt_and_distinguished fires :
  (∀ now natural,
     now ≤ fires → fires < now + natural →
     queue_submit (Some fires) now natural = Interrupted fires
     ∧ queue_consume (Some fires) now natural = Interrupted fires
     ∧ metered_read (Some fires) now natural = Interrupted fires
     ∧ remote_call (Some fires) now natural = Interrupted fires)
  ∧ (∀ now s,
       reached s = true → now ≤ fires → fires < now + pause s →
       cadence_pause (Some fires) now s = Interrupted fires
       ∧ beforeRequest_until (Some fires) s now = (s, Interrupted fires))
  ∧ (∀ now base ceiling k,
       now ≤ fires → fires < now + backoff_delay base ceiling k →
       backoff_sleep (Some fires) now base ceiling k = Interrupted fires)
  ∧ (∀ now natural,
       now < fires → now + natural ≤ fires →
       queue_submit (Some fires) now natural = Elapsed (now + natural)
       ∧ queue_consume (Some fires) now natural = Elapsed (now + natural)
       ∧ metered_read (Some fires) now natural = Elapsed (now + natural)
       ∧ remote_call (Some fires) now natural = Elapsed (now + natural))
  ∧ (∀ w j p st now,
       now ≤ at_time (execute_until (Some fires) w j p st now).2
           ≤ Nat.max now fires
       ∧ match execute_until (Some fires) w j p st now with
         | (o, st', Interrupted time) =>
             o = Stopped ∧ disk st' !! temp_of w (output j) = None
         | (o, st', Elapsed time) =>
             execute_until None w j p st now = (o, st', Elapsed time)
             ∧ execute w j st = (o, st')
         end)
  ∧ (∀ w j p st now,
       now ≤ fires →
       fires < at_time (execute_until None w j p st now).2 →
       ∃ st',
         execute_until (Some fires) w j p st now
         = (Stopped, st', Interrupted fires)
         ∧ disk st' !! temp_of w (output j) = None)
  ∧ (∀ lanes disk0 now,
       now ≤ (run (Some fires) lanes disk0 now).2 ≤ Nat.max now fires
       ∧ completed (run (Some fires) lanes disk0 now).1
         ≤ completed (run None lanes disk0 now).1
       ∧ skipped (run (Some fires) lanes disk0 now).1
         ≤ skipped (run None lanes disk0 now).1
       ∧ failed (run (Some fires) lanes disk0 now).1
         ≤ failed (run None lanes disk0 now).1)
  ∧ (∀ lanes disk0 now,
       now ≤ fires →
       fires < (run None lanes disk0 now).2 →
       cancelled (run (Some fires) lanes disk0 now).1 = true
       ∧ (run (Some fires) lanes disk0 now).2 = fires).
Proof.
  repeat apply conj.
  - intros now natural Hle Hlt.
    unfold queue_submit, queue_consume, metered_read, remote_call.
    by rewrite suspend_cut.
  - intros now s Hreached Hle Hlt.
    unfold beforeRequest_until, cadence_pause. rewrite Hreached.
    by rewrite suspend_cut.
  - intros now base ceiling k Hle Hlt. unfold backoff_sleep.
    by rewrite suspend_cut.
  - intros now natural Hlt Hle.
    unfold queue_submit, queue_consume, metered_read, remote_call.
    by rewrite suspend_late.
  - intros w j p st now.
    pose proof (execute_prompt (Some fires) w j p st now) as Hprompt.
    split; [by apply prompt_bound|].
    destruct (execute_until (Some fires) w j p st now)
      as [[o st'] [time|time]] eqn:Hjob.
    + pose proof (execute_elapsed _ _ _ _ _ _ _ _ _ Hjob) as Hnone.
      split; [done|].
      by rewrite <- (execute_never w j p st now), Hnone.
    + by eapply execute_interrupted.
  - intros w j p st now Hle Hlt.
    pose proof (execute_prompt (Some fires) w j p st now) as Hprompt.
    destruct (execute_until (Some fires) w j p st now)
      as [[o st'] [time|time]] eqn:Hjob; cbn [snd] in Hprompt.
    + rewrite (execute_elapsed _ _ _ _ _ _ _ _ _ Hjob) in Hlt.
      cbn in Hlt. destruct Hprompt as [_ Hbound].
      specialize (Hbound fires eq_refl). lia.
    + destruct Hprompt as (? & [= <-] & ->).
      destruct (execute_interrupted _ _ _ _ _ _ _ _ _ Hjob) as [-> Hgone].
      exists st'. split; [|done]. do 2 f_equal. lia.
  - intros lanes disk0 now.
    split; [apply run_prompt|apply run_counts].
  - intros lanes disk0 now Hle Hlt.
    pose proof (run_prompt fires lanes disk0 now) as Hprompt.
    destruct (run_fate fires lanes disk0 now) as [[Hc Ht]|Hnone]; [|lia].
    split; [done|lia].
Qed.

(** The guard at its threshold pauses for 30 ticks; a signal 10 ticks
    into the pause ends the call there and leaves the guard as it
    was. *)
Example pause_cut_short :
  beforeRequest_until None {| counter := 4; threshold := 4; pause := 30 |} 100
  = ({| counter := 1; threshold := 4; pause := 30 |}, Elapsed 130)
  ∧ beforeRequest_until (Some 110)
      {| counter := 4; threshold := 4; pause := 30 |} 100
    = ({| counter := 4; threshold := 4; pause := 30 |}, Interrupted 110)
  ∧ beforeRequest_until (Some 110)
      {| counter := 3; threshold := 4; pause := 30 |} 100
    = ({| counter := 4; threshold := 4; pause := 30 |}, Elapsed 100).
Proof. repeat split. Qed.

(** Two workers and three jobs; without the signal the run takes 37
    ticks. *)
Example two_lanes_run :
  run None two_lanes ∅ 0
  = ({| completed := 2; skipped := 0; failed := 1; cancelled := false |}, 37)
  ∧ run (Some 10) two_lanes ∅ 0
    = ({| completed := 0; skipped := 0; failed := 0; cancelled := true |}, 10)
  ∧ run (Some 35) two_lanes ∅ 0
    = ({| completed := 1; skipped := 0; failed := 1; cancelled := true |}, 35)
  ∧ run (Some 0) two_lanes ∅ 0
    = ({| completed := 0; skipped := 0; failed := 0; cancelled := true |}, 0).
Proof. repeat split; by vm_compute. Qed.

(** The signal in the middle of the second attempt: the job is stopped
    at that tick and the temporary file is gone. *)
Example episode_cut_short :
  (execute_until None recovering episode unhurried (begin ∅) 0).1.1
  = Completed
  ∧ (execute_until None recovering episode unhurried (begin ∅) 0).2
    = Elapsed 30
  ∧ (execute_until (Some 14) recovering episode unhurried (begin ∅) 0).1.1
    = Stopped
  ∧ (execute_until (Some 14) recovering episode unhurried (begin ∅) 0).2
    = Interrupted 14
  ∧ disk (execute_until (Some 14) recovering episode unhurried (begin ∅) 0).1.2
      !! "downloads/Show - S01E01 - GerDub.mp4.part" = None
  ∧ disk (execute_until (Some 14) recovering episode unhurried (begin ∅) 0).1.2
      !! "downloads/Show - S01E01 - GerDub.mp4" = None.
Proof. repeat split; by vm_compute. Qed.

End SchedulerFacts.

(** ** The directory cache under concurrent readers *)

Module ReadersFacts.
Import Os DirCache Readers DirCacheFacts.

Lemma has_files c c' key : files c' = files c → has c' key = has c key.
Proof. unfold has. by intros ->. Qed.

Lemma holders_insert (pool : list Reader) i r r' :
  pool !! i = Some r →
  holders (<[i := r']> pool) + (if inside r then 1 else 0)
  = holders pool + (if inside r' then 1 else 0).
Proof.
  unfold holders. revert i.
  induction pool as [|x pool IH]; intros i Hi; [done|].
  destruct i as [|i]; simpl in *.
  - injection Hi as ->. lia.
  - specialize (IH i Hi). lia.
Qed.

Lemma holders_lookup (pool : list Reader) i r :
  pool !! i = Some r → inside r = true → 1 ≤ holders pool.
Proof.
  unfold holders. revert i.
  induction pool as [|x pool IH]; intros i Hi Hin; [done|].
  destruct i as [|i]; simpl in *.
  - injection Hi as ->. rewrite Hin. lia.
  - specialize (IH i Hi Hin). lia.
Qed.

(** The reader count of the mutex follows the readers inside. *)
Lemma interleave_readerCount schedule : ∀ c pool base,
  readerCount (mu c) = base + holders pool →
  readerCount (mu (interleave schedule c pool).1)
  = base + holders (interleave schedule c pool).2.
Proof.
  induction schedule as [|i rest IH]; intros c pool base Hinv; simpl; [done|].
  destruct (pool !! i) as [r|] eqn:Hi; [|by apply IH].
  pose proof (holders_insert pool i r) as Hins.
  pose proof (holders_lookup pool i r Hi) as Hone.
  unfold step.
  destruct r as [q p]. unfold inside in *. simpl in *.
  destruct p; simpl; apply IH; simpl.
  - specialize (Hins {| query := q; pc := AtMp4 |} Hi). simpl in Hins. lia.
  - destruct (has c (q +:+ ".mp4")).
    + specialize (Hins {| query := q; pc := AtRUnlock true |} Hi).
      simpl in Hins. lia.
    + specialize (Hins {| query := q; pc := AtTs |} Hi).
      simpl in Hins. lia.
  - destruct (has c (q +:+ ".ts")).
    + specialize (Hins {| query := q; pc := AtRUnlock true |} Hi).
      simpl in Hins. lia.
    + specialize (Hins {| query := q; pc := AtBare |} Hi).
      simpl in Hins. lia.
  - specialize (Hins {| query := q; pc := AtRUnlock (has c q) |} Hi).
    simpl in Hins. lia.
  - specialize (Hins {| query := q; pc := Returned answer |} Hi).
    simpl in Hins. specialize (Hone eq_refl). lia.
  - rewrite list_insert_id by done. done.
Qed.

Lemma holders_callers names : holders (callers names) = 0.
Proof. unfold holders, callers. by induction names. Qed.

Lemma holders_none (pool : list Reader) :
  Forall (λ r, inside r = false) pool → holders pool = 0.
Proof.
  unfold holders. induction 1 as [|r pool Hr _ IH]; simpl; [done|].
  rewrite Hr. done.
Qed.

(** X1. The read lock is balanced: under any interleaving of callers of
    [CheckIfEpisodeExists] the mutex counts exactly the readers between
    their [RLock] and their [RUnlock] on top of the count it started
    with, and once no reader is in between the cache is the very cache
    the callers found. *)
Theorem read_lock_is_balanced schedule c names :
  readerCount (mu (interleave schedule c (callers names)).1)
  = readerCount (mu c) + holders (interleave schedule c (callers names)).2
  ∧ (Forall (λ r, inside r = false)
            (interleave schedule c (callers names)).2 →
     (interleave schedule c (callers names)).1 = c).
Proof.
  assert (Hcount :
    readerCount (mu (interleave schedule c (callers names)).1)
    = readerCount (mu c)
      + holders (interleave schedule c (callers names)).2).
  { apply interleave_readerCount. rewrite holders_callers. lia. }
  split; [done|]. intros Hout.
  pose proof (interleave_files schedule c (callers names)) as Hfiles.
  rewrite (holders_none _ Hout) in Hcount.
  destruct (interleave schedule c (callers names)) as [[[n] fl] pool'].
  destruct c as [[n0] fl0]. simpl in *. subst. f_equal. f_equal. lia.
Qed.

Lemma answer_unfold c name :
  (CheckIfEpisodeExists c name).1
  = if has c (name +:+ ".mp4") then true
    else if has c (name +:+ ".ts") then true else has c name.
Proof.
  unfold CheckIfEpisodeExists. simpl. rewrite !has_RLock.
  by repeat destruct (has c _).
Qed.

Lemma step_on_track c c' name r :
  files c' = files c → on_track c name r → on_track c name (step c' r).2.
Proof.
  intros Hfiles [Hq Hpc]. unfold step, on_track.
  rewrite answer_unfold in *.
  destruct r as [q p]. simpl in *. subst q.
  destruct p; simpl; (split; [done|]).
  - done.
  - rewrite (has_files c c') by done.
    by destruct (has c (name +:+ ".mp4")) eqn:Hmp4.
  - rewrite (has_files c c') by done. rewrite Hpc.
    by destruct (has c (name +:+ ".ts")) eqn:Hts.
  - rewrite (has_files c c') by done. destruct Hpc as [-> ->]. done.
  - done.
  - done.
Qed.

Lemma interleave_on_track c schedule : ∀ c' pool names,
  files c' = files c →
  Forall2 (on_track c) names pool →
  Forall2 (on_track c) names (interleave schedule c' pool).2.
Proof.
  induction schedule as [|i rest IH]; intros c' pool names Hfiles Hall;
    simpl; [done|].
  destruct (pool !! i) as [r|] eqn:Hi; [|by apply IH].
  pose proof (step_files c' r) as Hstep.
  pose proof (step_on_track c c') as Htrack.
  destruct (step c' r) as [c'' r'] eqn:Hs. simpl in Hstep.
  apply IH; [congruence|].
  destruct (Forall2_lookup_r _ _ _ _ _ Hall Hi) as (name & Hname & Hr).
  rewrite <- (list_insert_id names i name Hname).
  apply Forall2_insert; [done|].
  specialize (Htrack name r Hfiles Hr). by rewrite Hs in Htrack.
Qed.

Lemma callers_on_track c names : Forall2 (on_track c) names (callers names).
Proof.
  unfold callers. induction names as [|n names IH]; simpl; [constructor|].
  constructor; [done|exact IH].
Qed.

(** X2. Concurrent readers get the sequential answers: under any
    interleaving of the statements of any callers, a reader that has
    returned carries the answer [CheckIfEpisodeExists] gives for its
    name on the cache as it was before any of them ran. *)
Theorem concurrent_answers_are_sequential schedule c names i r answer :
  (interleave schedule c (callers names)).2 !! i = Some r →
  pc r = Returned answer →
  ∃ name, names !! i = Some name ∧ query r = name
          ∧ answer = (CheckIfEpisodeExists c name).1.
Proof.
  intros Hi Hpc.
  pose proof (interleave_on_track c schedule c (callers names) names
                eq_refl (callers_on_track c names)) as Hall.
  destruct (Forall2_lookup_r _ _ _ _ _ Hall Hi) as (name & Hname & Hq & Ha).
  exists name. rewrite Hpc in Ha. done.
Qed.

Lemma concurrent_answers_are_sequential_witness :
  ∃ name, sample_names !! 1 = Some name
          ∧ query {| query := "Show - S01E04 - GerDub"; pc := Returned false |}
            = name
          ∧ false = (CheckIfEpisodeExists sample_cache name).1.
Proof.
  apply (concurrent_answers_are_sequential sample_schedule sample_cache
           sample_names 1
           {| query := "Show - S01E04 - GerDub"; pc := Returned false |} false).
  - vm_compute. reflexivity.
  - reflexivity.
Defined.

End ReadersFacts.

(** ** The index as a set of file names *)

Module ListingFacts.
Import Os DirCache Listing DirCacheFacts.

Lemma NewDirectoryCache_mu fs dir c :
  NewDirectoryCache fs dir = Ok c → readerCount (mu c) = 0.
Proof.
  unfold NewDirectoryCache.
  destruct (ReadDir fs dir) as [entries|err].
  - by intros [= <-].
  - destruct (IsNotExist err); [|done]. by intros [= <-].
Qed.

(** X3. The index is the set of the directory's file names and nothing
    more: two directories with the same file names give the same cache,
    whatever the order of the entries, their repetitions and the
    subdirectories beside them. *)
Theorem index_depends_on_file_names_only fs dir c fs' dir' c' :
  NewDirectoryCache fs dir = Ok c →
  NewDirectoryCache fs' dir' = Ok c' →
  (∀ n, n ∈ filenames fs dir ↔ n ∈ filenames fs' dir') →
  c = c'.
Proof.
  intros Hc Hc' Hsame.
  pose proof (NewDirectoryCache_mu _ _ _ Hc) as Hmu.
  pose proof (NewDirectoryCache_mu _ _ _ Hc') as Hmu'.
  pose proof (NewDirectoryCache_dom _ _ _ Hc) as Hdom.
  pose proof (NewDirectoryCache_dom _ _ _ Hc') as Hdom'.
  assert (Hfiles : files c = files c').
  { apply map_eq. intros key.
    assert (Hkey : key ∈ dom (files c) ↔ key ∈ dom (files c')).
    { rewrite Hdom, Hdom', !elem_of_list_to_set. apply Hsame. }
    rewrite !elem_of_dom in Hkey.
    destruct (files c !! key) as [[]|] eqn:H1,
             (files c' !! key) as [[]|] eqn:H2; try done.
    - destruct Hkey as [Hkey _]. by destruct Hkey as [? [=]].
    - destruct Hkey as [_ Hkey]. by destruct Hkey as [? [=]]. }
  destruct c as [[n] fl], c' as [[n'] fl']. simpl in *. by subst.
Qed.

Lemma index_depends_on_file_names_only_witness :
  sample_cache = shuffled_cache.
Proof.
  apply (index_depends_on_file_names_only
           sample_fs "downloads" sample_cache
           shuffled_fs "library/Show" shuffled_cache).
  - reflexivity.
  - reflexivity.
  - intros n.
    set (here := filenames sample_fs "downloads").
    set (there := filenames shuffled_fs "library/Show").
    vm_compute in here, there. subst here there.
    rewrite !elem_of_cons, !elem_of_nil. tauto.
Defined.

End ListingFacts.

(** ** The task queue, end to end *)

Module PipelineFacts.
Import Chan Main Pipeline.

Lemma play_conserves moves : ∀ q,
  (submitted (manager (play q moves))
   ++ (to_task <$> buf (tasks (play q moves))))%list
  = (submitted (manager q) ++ (to_task <$> buf (tasks q))
     ++ (to_task <$> accepted q moves))%list.
Proof.
  induction moves as [|m rest IH]; intros q.
  { simpl. by rewrite app_nil_r. }
  cbn [play accepted].
  destruct (move q m) as [q'| |] eqn:Hmove; [|apply IH..].
  rewrite IH. destruct m as [tw| |]; simpl in Hmove.
  - unfold send in Hmove. destruct (closed (tasks q)); [done|].
    destruct (length (buf (tasks q)) <? cap (tasks q)); [|done].
    injection Hmove as <-. simpl.
    rewrite fmap_app, fmap_cons. simpl. by rewrite <- !app_assoc.
  - destruct (feeder_done q); [done|]. unfold recv in Hmove.
    destruct (buf (tasks q)) as [|tw waiting] eqn:Hbuf.
    + destruct (closed (tasks q)); [|done].
      injection Hmove as <-. simpl. by rewrite Hbuf.
    + injection Hmove as <-. simpl. by rewrite <- !app_assoc.
  - unfold close in Hmove. destruct (closed (tasks q)); [done|].
    by injection Hmove as <-.
Qed.

(** X4. Nothing is lost, repeated or reordered on the way to the
    manager: after any moves of the producer, the feeder and the
    closing defer, the tasks handed to [manager.Submit] followed by
    those still waiting in [taskChan] are exactly the wrappers whose
    send completed, in the order of the sends, each converted field by
    field. *)
Theorem feeder_forwards_every_task_once_in_order moves :
  (submitted (manager (play start moves))
   ++ (to_task <$> buf (tasks (play start moves))))%list
  = to_task <$> accepted start moves.
Proof. by rewrite play_conserves. Qed.

(** [manager.Close] has been called only with the channel closed and
    drained and the feeder gone. *)
Lemma move_closed_late q m q' :
  (manager_closed (manager q) = true →
   feeder_done q = true ∧ closed (tasks q) = true ∧ buf (tasks q) = []) →
  move q m = Proceeds q' →
  manager_closed (manager q') = true →
  feeder_done q' = true ∧ closed (tasks q') = true ∧ buf (tasks q') = [].
Proof.
  intros Hinv. destruct m as [tw| |]; simpl.
  - unfold send. destruct (closed (tasks q)) eqn:Hclosed; [done|].
    destruct (length (buf (tasks q)) <? cap (tasks q)); [|done].
    intros [= <-]. simpl. intros Hm. destruct (Hinv Hm) as (_ & ? & _).
    congruence.
  - destruct (feeder_done q) eqn:Hdone; [done|]. unfold recv.
    destruct (buf (tasks q)) as [|tw waiting] eqn:Hbuf.
    + destruct (closed (tasks q)) eqn:Hclosed; [|done].
      intros [= <-]. simpl. done.
    + intros [= <-]. simpl. intros Hm. destruct (Hinv Hm) as (? & _).
      congruence.
  - unfold close. destruct (closed (tasks q)) eqn:Hclosed; [done|].
    intros [= <-]. simpl. intros Hm. destruct (Hinv Hm) as (_ & ? & _).
    congruence.
Qed.

Lemma play_closed_late moves : ∀ q,
  (manager_closed (manager q) = true →
   feeder_done q = true ∧ closed (tasks q) = true ∧ buf (tasks q) = []) →
  manager_closed (manager (play q moves)) = true →
  feeder_done (play q moves) = true
  ∧ closed (tasks (play q moves)) = true
  ∧ buf (tasks (play q moves)) = [].
Proof.
  induction moves as [|m rest IH]; intros q Hinv; simpl; [done|].
  destruct (move q m) as [q'| |] eqn:Hmove; [|by apply IH..].
  apply IH. by eapply move_closed_late.
Qed.

Lemma play_finished moves : ∀ q,
  feeder_done q = true → closed (tasks q) = true → play q moves = q.
Proof.
  induction moves as [|m rest IH]; intros q Hdone Hclosed; simpl; [done|].
  assert (Hstuck : ∀ q', move q m ≠ Proceeds q').
  { intros q'. destruct m as [tw| |]; simpl.
    - unfold send. by rewrite Hclosed.
    - by rewrite Hdone.
    - unfold close. by rewrite Hclosed. }
  destruct (move q m) as [q'| |]; [by destruct (Hstuck q')|by apply IH..].
Qed.

Lemma play_app moves more q : play q (moves ++ more) = play (play q moves) more.
Proof.
  revert q. induction moves as [|m rest IH]; intros q; simpl; [done|].
  destruct (move q m); apply IH.
Qed.

(** X5. [manager.Close] comes last: when the feeder has called it, the
    deferred [close(taskChan)] has run and every task sent has been
    handed to [manager.Submit]; from then on no move changes the queue,
    so nothing is submitted after the close. *)
Theorem manager_is_closed_last moves more :
  manager_closed (manager (play start moves)) = true →
  closed (tasks (play start moves)) = true
  ∧ submitted (manager (play start moves)) = to_task <$> accepted start moves
  ∧ play start (moves ++ more) = play start moves.
Proof.
  intros Hm.
  destruct (play_closed_late moves start) as (Hdone & Hclosed & Hbuf);
    [done..|].
  split; [done|]. split.
  - pose proof (play_conserves moves start) as Hall.
    rewrite Hbuf in Hall. simpl in Hall. by rewrite app_nil_r in Hall.
  - rewrite play_app. by apply play_finished.
Qed.

Lemma manager_is_closed_last_witness :
  closed (tasks (play start (sample_moves ++ [CloseTasks; Feed; Feed; Feed])))
  = true
  ∧ submitted
      (manager (play start (sample_moves ++ [CloseTasks; Feed; Feed; Feed])))
    = to_task
        <$> accepted start (sample_moves ++ [CloseTasks; Feed; Feed; Feed])
  ∧ play start ((sample_moves ++ [CloseTasks; Feed; Feed; Feed])
                ++ [Feed; Produce (sample_wrapper "S01E04")])
    = play start (sample_moves ++ [CloseTasks; Feed; Feed; Feed]).
Proof.
  apply (manager_is_closed_last
           (sample_moves ++ [CloseTasks; Feed; Feed; Feed])
           [Feed; Produce (sample_wrapper "S01E04")]).
  reflexivity.
Defined.

Lemma feed_drains waiting : ∀ sent n,
  play {| tasks := {| buf := waiting; cap := n; closed := true |};
          manager := {| submitted := sent; manager_closed := false |};
          feeder_done := false |}
       (replicate (S (length waiting)) Feed)
  = {| tasks := {| buf := []; cap := n; closed := true |};
       manager := {| submitted := (sent ++ (to_task <$> waiting))%list;
                     manager_closed := true |};
       feeder_done := true |}.
Proof.
  induction waiting as [|tw waiting IH]; intros sent n.
  - simpl. by rewrite app_nil_r.
  - change (replicate (S (length (tw :: waiting))) Feed)
      with (Feed :: replicate (S (length waiting)) Feed).
    cbn [play].
    match goal with
    | |- context [move ?q Feed] =>
        replace (move q Feed)
          with (Proceeds
                  {| tasks := {| buf := waiting; cap := n; closed := true |};
                     manager := {| submitted := (sent ++ [to_task tw])%list;
                                   manager_closed := false |};
                     feeder_done := false |}) by reflexivity
    end.
    rewrite IH. simpl. by rewrite <- app_assoc.
Qed.

(** X6. The deferred [close(taskChan)] lets the feeder finish: from any
    queue with the channel open and the feeder running, the close
    followed by one turn of the feeder per waiting task and one more
    hands every waiting task to [manager.Submit], in order, and then
    calls [manager.Close]. *)
Theorem close_lets_the_feeder_drain q :
  closed (tasks q) = false →
  feeder_done q = false →
  manager_closed (manager q) = false →
  play q (CloseTasks :: replicate (S (length (buf (tasks q)))) Feed)
  = {| tasks := {| buf := []; cap := cap (tasks q); closed := true |};
       manager := {| submitted := submitted (manager q)
                                  ++ (to_task <$> buf (tasks q));
                     manager_closed := true |};
       feeder_done := true |}.
Proof.
  destruct q as [[waiting n cl] [sent mc] done]. simpl.
  intros -> -> ->. cbn [play]. simpl move. unfold close. simpl.
  apply feed_drains.
Qed.

Lemma close_lets_the_feeder_drain_witness :
  play (play start sample_moves)
       (CloseTasks
        :: replicate (S (length (buf (tasks (play start sample_moves))))) Feed)
  = {| tasks := {| buf := []; cap := cap (tasks (play start sample_moves));
                   closed := true |};
       manager :=
         {| submitted := submitted (manager (play start sample_moves))
                         ++ (to_task <$> buf (tasks (play start sample_moves)));
            manager_closed := true |};
       feeder_done := true |}.
Proof.
  apply (close_lets_the_feeder_drain (play start sample_moves));
    reflexivity.
Defined.

End PipelineFacts.

(** ** The bound of the task queue *)

Module QueueFacts.
Import Chan Main Pipeline.





End QueueFacts.

(** ** The exit status, in full *)

Module EntryFacts.
Import Main.

Lemma eqb_empty_false (x : string) : String.eqb x "" = false ↔ x ≠ "".
Proof. apply String.eqb_neq. Qed.

Lemma main_work_zero w args :
  main_work w args = 0%Z
  ↔ Url args ≠ ""
    ∧ (Extractor args = ""
       ∨ (ExtractVideoUrl w = Value ∧ DownloadToFile w = None)).
Proof.
  unfold main_work, handleSingleDownload.
  destruct (String.eqb_spec (Url args) "") as [Hu|Hu]; simpl.
  { split; [done|]. by intros [? _]. }
  destruct (String.eqb_spec (Extractor args) "") as [He|He]; simpl.
  { destruct (handleSeriesDownload w args); split; auto. }
  destruct (ExtractVideoUrl w); [| |destruct (DownloadToFile w)];
    split; try done; try (intros [_ [?|[? ?]]]; done); auto.
Qed.

(** X7. The exit status of [main] is 0 or 1, and it is 0 exactly when
    the command line parses, the data and save directories, the rate
    limit and FFmpeg are all in place, a URL is given, and either no
    extractor is named (a series download, whatever its outcome) or the
    single download finds an extractor and completes. *)
Theorem main_exit_status_in_full w args :
  (main w args = 0%Z ∨ main w args = 1%Z)
  ∧ (main w args = 0%Z
     ↔ Execute w = None ∧ GetDataDir w = None ∧ GetSaveDirectory w = None
       ∧ ParseRateLimit w = None ∧ AutoDownload w = None
       ∧ Url args ≠ ""
       ∧ (Extractor args = ""
          ∨ (ExtractVideoUrl w = Value ∧ DownloadToFile w = None))).
Proof.
  pose proof (main_work_zero w args) as Hwork.
  assert (Hbit : main_work w args = 0%Z ∨ main_work w args = 1%Z).
  { unfold main_work.
    destruct (negb _); [|by right]. destruct (negb _).
    - destruct (handleSingleDownload w args); auto.
    - destruct (handleSeriesDownload w args); auto. }
  unfold main.
  destruct (Execute w); [split; [by right|split; [done|by intros [? _]]]|].
  destruct (GetDataDir w);
    [split; [by right|split; [done|by intros (_ & ? & _)]]|].
  destruct (GetSaveDirectory w);
    [split; [by right|split; [done|by intros (_ & _ & ? & _)]]|].
  destruct (ParseRateLimit w);
    [split; [by right|split; [done|by intros (_ & _ & _ & ? & _)]]|].
  destruct (AutoDownload w);
    [split; [by right|split; [done|by intros (_ & _ & _ & _ & ? & _)]]|].
  split; [done|]. rewrite Hwork. tauto.
Qed.

(** X8. The earlier [main] tells only a failed set-up and a missing URL
    in its exit status; the present [main] gives the same status in
    every run but one kind: a single download that fails, which the
    earlier one ends with 0 and the present one with 1. *)
Theorem earlier_main_differs_on_failed_single_download w args :
  (Sdl.main w args = 0%Z
   ↔ Execute w = None ∧ GetDataDir w = None ∧ GetSaveDirectory w = None
     ∧ ParseRateLimit w = None ∧ AutoDownload w = None ∧ Url args ≠ "")
  ∧ (Sdl.main w args ≠ main w args
     ↔ Sdl.main w args = 0%Z ∧ main w args = 1%Z
       ∧ Extractor args ≠ "" ∧ handleSingleDownload w args ≠ None).
Proof.
  unfold Sdl.main, main, Sdl.main_work, main_work.
  destruct (Execute w); [split; split; try done; by intros [? _]|].
  destruct (GetDataDir w);
    [split; split; try done; [by intros (_ & ? & _)|by intros [? _]]|].
  destruct (GetSaveDirectory w);
    [split; split; try done; [by intros (_ & _ & ? & _)|by intros [? _]]|].
  destruct (ParseRateLimit w);
    [split; split; try done; [by intros (_ & _ & _ & ? & _)|by intros [? _]]|].
  destruct (AutoDownload w);
    [split; split; try done;
       [by intros (_ & _ & _ & _ & ? & _)|by intros [? _]]|].
  destruct (String.eqb_spec (Url args) "") as [Hu|Hu]; simpl.
  { split; split; try done; [by intros (_ & _ & _ & _ & _ & ?)|by intros [? _]]. }
  destruct (String.eqb_spec (Extractor args) "") as [He|He]; simpl.
  { split; [done|]. destruct (handleSeriesDownload w args);
      (split; [done|by intros (_ & ? & _)]). }
  split; [done|].
  destruct (handleSingleDownload w args); split; try done.
  by intros (_ & _ & _ & ?).
Qed.

End EntryFacts.

(** ** The uBlock extension *)

Module ChromeFacts.
Import Chrome.

Lemma append_cons a (s t : string) : String a s +:+ t = String a (s +:+ t).
Proof. reflexivity. Qed.

Lemma append_nil_l (t : string) : "" +:+ t = t.
Proof. reflexivity. Qed.

(** [String.prefix] is "starts with". *)
Lemma prefix_spec (sub : string) : ∀ s,
  String.prefix sub s = true ↔ ∃ rest, s = sub +:+ rest.
Proof.
  induction sub as [|a sub IH]; intros s.
  - split; [intros _; by exists s|intros _; by destruct s].
  - destruct s as [|b s]; simpl.
    + split; [done|]. by intros [rest [=]].
    + destruct (Ascii.ascii_dec a b) as [->|Hab].
      * rewrite IH. split; intros [rest Hrest]; exists rest.
        -- by rewrite append_cons, Hrest.
        -- rewrite append_cons in Hrest. by injection Hrest.
      * split; [done|]. intros [rest Hrest].
        rewrite append_cons in Hrest. injection Hrest as ? _. by subst.
Qed.

(** [Contains] is "has as a substring", as [strings.Contains]. *)
Lemma Contains_spec (sub : string) : ∀ s,
  Contains s sub = true ↔ ∃ before after, s = before +:+ sub +:+ after.
Proof.
  induction s as [|a s IH]; cbn [Contains].
  - destruct (String.prefix sub "") eqn:Hp.
    + split; [|done]. intros _. apply prefix_spec in Hp as [rest ->].
      by exists "", rest.
    + split; [done|]. intros (before & after & Hs).
      destruct before as [|b before]; [|by rewrite append_cons in Hs].
      rewrite append_nil_l in Hs.
      assert (String.prefix sub "" = true) by (apply prefix_spec; eauto).
      congruence.
  - destruct (String.prefix sub (String a s)) eqn:Hp.
    + split; [|done]. intros _. apply prefix_spec in Hp as [rest Hrest].
      exists "", rest. by rewrite append_nil_l.
    + rewrite IH. split.
      * intros (before & after & ->). by exists (String a before), after.
      * intros (before & after & Hs).
        destruct before as [|b before].
        -- rewrite append_nil_l in Hs.
           assert (String.prefix sub (String a s) = true)
             by (apply prefix_spec; eauto).
           congruence.
        -- rewrite append_cons in Hs. injection Hs as _ ->.
           by exists before, after.
Qed.

Lemma chromium_url_first (assets : list Asset) url :
  url ≠ "" →
  chromium_url assets = url
  ↔ ∃ skipped asset rest,
      assets = (skipped ++ asset :: rest)%list
      ∧ Forall (λ a, Contains (Name a) "chromium" = false) skipped
      ∧ Contains (Name asset) "chromium" = true
      ∧ url = BrowserDownloadURL asset.
Proof.
  intros Hurl. induction assets as [|a assets IH]; simpl.
  - split; [congruence|]. intros (skipped & asset & rest & Hl & _).
    by destruct skipped.
  - destruct (Contains (Name a) "chromium") eqn:Ha.
    + split.
      * intros <-. by exists [], a, assets.
      * intros (skipped & asset & rest & Hl & Hskip & Hasset & ->).
        destruct skipped as [|x skipped]; simpl in Hl.
        -- by injection Hl as -> _.
        -- injection Hl as -> _. apply Forall_cons in Hskip as [Hx _].
           congruence.
    + rewrite IH. split.
      * intros (skipped & asset & rest & -> & Hskip & Hasset & ->).
        exists (a :: skipped), asset, rest. split; [done|].
        split; [by apply Forall_cons|done].
      * intros (skipped & asset & rest & Hl & Hskip & Hasset & ->).
        destruct skipped as [|x skipped]; simpl in Hl.
        -- injection Hl as -> _. congruence.
        -- injection Hl as -> ->. apply Forall_cons in Hskip as [_ Hskip].
           by exists skipped, asset, rest.
Qed.

Lemma fetchLatestUblockInfo_tag resp tag url :
  fetchLatestUblockInfo resp = inl (tag, url) → tag ≠ "" ∧ url ≠ "".
Proof.
  unfold fetchLatestUblockInfo. destruct resp as [err|err|release]; [done..|].
  destruct (String.eqb_spec (TagName release) "") as [|Htag]; [done|].
  destruct (String.eqb_spec (chromium_url (Assets release)) "") as [|Hurl];
    [done|].
  simpl. by intros [= <- <-].
Qed.

(** X9. [fetchLatestUblockInfo] succeeds exactly on a decoded release
    with a tag and returns the download URL of the first asset whose
    name has "chromium" in it; an empty URL there is an error, also
    when a later asset would do. *)
Theorem fetchLatestUblockInfo_takes_first_chromium_asset resp tag url :
  fetchLatestUblockInfo resp = inl (tag, url)
  ↔ ∃ release,
      resp = Decoded release ∧ tag = TagName release
      ∧ tag ≠ "" ∧ url ≠ ""
      ∧ ∃ skipped asset rest,
          Assets release = (skipped ++ asset :: rest)%list
          ∧ Forall (λ a, ¬ ∃ before after,
                           Name a = before +:+ "chromium" +:+ after) skipped
          ∧ (∃ before after, Name asset = before +:+ "chromium" +:+ after)
          ∧ url = BrowserDownloadURL asset.
Proof.
  split.
  - intros Hfetch.
    destruct (fetchLatestUblockInfo_tag _ _ _ Hfetch) as [Htag Hurl].
    unfold fetchLatestUblockInfo in Hfetch.
    destruct resp as [err|err|release]; [done..|].
    destruct (String.eqb (TagName release) ""
              || String.eqb (chromium_url (Assets release)) ""); [done|].
    injection Hfetch as <- Hpick.
    exists release. repeat split; [done..|].
    apply (chromium_url_first _ _ Hurl) in Hpick
      as (skipped & asset & rest & Hl & Hskip & Hasset & Hu).
    exists skipped, asset, rest. split; [done|]. split; [|split; [|done]].
    + eapply Forall_impl; [exact Hskip|]. intros a Ha Hin.
      apply Contains_spec in Hin. congruence.
    + by apply Contains_spec.
  - intros (release & -> & -> & Htag & Hurl
            & skipped & asset & rest & Hl & Hskip & Hasset & Hu).
    assert (Hpick : chromium_url (Assets release) = url).
    { apply (chromium_url_first _ _ Hurl).
      exists skipped, asset, rest. split; [done|]. split; [|split; [|done]].
      - eapply Forall_impl; [exact Hskip|]. intros a Ha.
        apply not_true_is_false. by rewrite Contains_spec.
      - by apply Contains_spec. }
    unfold fetchLatestUblockInfo. rewrite Hpick.
    apply String.eqb_neq in Htag, Hurl. by rewrite Htag, Hurl.
Qed.

Example sample_release_url :
  fetchLatestUblockInfo (Decoded sample_release)
  = inl ("2026.301.1200", "https://example.org/chromium.zip").
Proof. reflexivity. Qed.

(** X10. [getUblockDirectory] fails exactly on a directory that cannot
    be read or is empty; what it returns is never a plain file: it is
    the directory itself, or its only entry when that is a
    subdirectory, as when the archive unpacked into one folder. *)
Theorem getUblockDirectory_returns_a_directory Join fs ublockDir :
  (∀ err, getUblockDirectory Join fs ublockDir = inr err
          ↔ (∃ e, Os.ReadDir fs ublockDir = Os.Err e ∧ err = Sys e)
            ∨ (Os.ReadDir fs ublockDir = Os.Ok []
               ∧ err = Msg "ublock directory is empty"))
  ∧ (∀ path, getUblockDirectory Join fs ublockDir = inl path
             ↔ ∃ entries, Os.ReadDir fs ublockDir = Os.Ok entries
                 ∧ entries ≠ []
                 ∧ ((∃ name, entries = [ {| Os.Name := name;
                                            Os.IsDir := true |} ]
                             ∧ path = Join ublockDir name)
                    ∨ ((∀ name, entries ≠ [ {| Os.Name := name;
                                               Os.IsDir := true |} ])
                       ∧ path = ublockDir))).
Proof.
  unfold getUblockDirectory.
  destruct (Os.ReadDir fs ublockDir) as [entries|e].
  - destruct entries as [|[name [|]] [|second more]]; simpl.
    + split.
      * intros err. split; [intros [= <-]; by right|].
        intros [[e [[=] _]]|[_ ->]]. done.
      * intros path. split; [done|]. by intros (entries & [= <-] & ? & _).
    + split.
      * intros err. split; [done|]. by intros [[e [[=] _]]|[[=] _]].
      * intros path. split.
        -- intros [= <-]. eexists. split; [done|]. split; [done|].
           left. by exists name.
        -- intros (entries & [= <-] & _ & [(n & [= <-] & ->)|[Hno _]]);
             [done|]. by destruct (Hno name).
    + split.
      * intros err. split; [done|]. by intros [[e [[=] _]]|[[=] _]].
      * intros path. split.
        -- intros [= <-]. eexists. split; [done|]. split; [done|].
           right. by split.
        -- by intros (entries & [= <-] & _ & [(n & [=] & _)|[_ ->]]).
    + split.
      * intros err. split; [done|]. by intros [[e [[=] _]]|[[=] _]].
      * intros path. split.
        -- intros [= <-]. eexists. split; [done|]. split; [done|].
           right. by split.
        -- by intros (entries & [= <-] & _ & [(n & [=] & _)|[_ ->]]).
    + split.
      * intros err. split; [done|]. by intros [[e [[=] _]]|[[=] _]].
      * intros path. split.
        -- intros [= <-]. eexists. split; [done|]. split; [done|].
           right. by split.
        -- by intros (entries & [= <-] & _ & [(n & [=] & _)|[_ ->]]).
  - split.
    + intros err. split.
      * intros [= <-]. left. by exists e.
      * by intros [(e' & [= <-] & ->)|[[=] _]].
    + intros path. split; [done|]. by intros (entries & [=] & _).
Qed.

Example unpacked_directories :
  getUblockDirectory slash unpacked_fs "data/uBlock"
  = inl "data/uBlock/uBOLite.chromium"
  ∧ getUblockDirectory slash unpacked_fs "data/flat" = inl "data/flat"
  ∧ getUblockDirectory slash unpacked_fs "data/empty"
    = inr (Msg "ublock directory is empty")
  ∧ getUblockDirectory slash unpacked_fs "data/missing"
    = inr (Sys Os.ENOENT).
Proof. repeat split. Qed.

Ltac install_cases i :=
  destruct (MkdirAll_dataDir i) as [?err|] eqn:Hmk;
    [|destruct (download i) as [?err|code status] eqn:Hget;
      [|destruct (code =? 200)%Z eqn:Hcode;
        [destruct (Create i) as [?err|] eqn:Hcreate;
          [|destruct (Copy i) as [?err|] eqn:Hcopy;
            [|destruct (MkdirAll_ublockDir i) as [?err|] eqn:Hdir;
              [|destruct (Unzip i) as [?err|] eqn:Hzip]]]|]]].

Ltac prepare_cases i :=
  unfold prepareUblock, up_to_date;
  destruct (same_version i) eqn:Hsame;
    [destruct (Stat i) eqn:Hstat|];
  cbn [andb];
  [|install_cases i|install_cases i];
  cbn [fst snd negb app].

Ltac members :=
  rewrite ?elem_of_app, ?elem_of_cons, ?elem_of_nil.

Lemma up_to_date_spec i :
  up_to_date i = true
  ↔ ∃ url, fetchLatestUblockInfo (latest i) = inl (currentVersion i, url)
           ∧ currentVersion i ≠ "fallback" ∧ Stat i = true.
Proof.
  unfold up_to_date, same_version, latestTag.
  rewrite !andb_true_iff, !negb_true_iff, String.eqb_eq, !String.eqb_neq.
  destruct (fetchLatestUblockInfo (latest i)) as [[tag url]|err] eqn:Hfetch.
  - split.
    + intros [[[_ ->] Hnot] Hstat]. by exists url.
    + intros (url' & [= <- <-] & Hnot & Hstat).
      by destruct (fetchLatestUblockInfo_tag _ _ _ Hfetch) as [Htag _].
  - split.
    + by intros [[_ Hnot] _].
    + by intros (url & [=] & _).
Qed.

(** X11. Every run of [prepareUblock] reads the version file and asks
    GitHub for the latest release. It stops after checking that the
    extension directory is there, with nothing created, downloaded or
    deleted, exactly when GitHub names the installed version and the
    directory exists, and then returns nil; every other run goes on to
    make the data directory. When the latest release cannot be read,
    the version is never taken as installed: the fallback archive is
    requested on every such start. *)
Theorem prepareUblock_skips_only_the_latest_version Join dataDir ublockDir i :
  (∃ rest,
     (prepareUblock Join dataDir ublockDir i).2
     = ReadFile (Join dataDir "current_ublock_version")
       :: HttpGet UblockGithubAPIURL :: rest)
  ∧ ((prepareUblock Join dataDir ublockDir i).2
     = [ ReadFile (Join dataDir "current_ublock_version");
         HttpGet UblockGithubAPIURL; StatPath ublockDir ]
     ↔ ∃ url, fetchLatestUblockInfo (latest i) = inl (currentVersion i, url)
              ∧ currentVersion i ≠ "fallback" ∧ Stat i = true)
  ∧ ((prepareUblock Join dataDir ublockDir i).2
     = [ ReadFile (Join dataDir "current_ublock_version");
         HttpGet UblockGithubAPIURL; StatPath ublockDir ] →
     (prepareUblock Join dataDir ublockDir i).1 = None)
  ∧ (MkdirAll dataDir ∈ (prepareUblock Join dataDir ublockDir i).2
     ↔ ¬ ∃ url, fetchLatestUblockInfo (latest i) = inl (currentVersion i, url)
                ∧ currentVersion i ≠ "fallback" ∧ Stat i = true)
  ∧ (∀ err, fetchLatestUblockInfo (latest i) = inr err →
            MkdirAll_dataDir i = None →
            HttpGet UblockFallbackDownloadURL
            ∈ (prepareUblock Join dataDir ublockDir i).2).
Proof.
  rewrite <- up_to_date_spec.
  split; [|split; [|split; [|split]]].
  - prepare_cases i; eauto.
  - prepare_cases i; split; done.
  - prepare_cases i; done.
  - prepare_cases i; members; split; try done; naive_solver.
  - intros err Hfetch Hmk0.
    assert (Hstale : same_version i = false).
    { apply not_true_is_false. intros Hsame.
      unfold same_version, latestTag in Hsame. rewrite Hfetch in Hsame.
      rewrite !andb_true_iff, !negb_true_iff in Hsame.
      by destruct Hsame as [_ Hsame]. }
    assert (Hurl : downloadURL i = UblockFallbackDownloadURL).
    { unfold downloadURL. by rewrite Hfetch. }
    prepare_cases i; rewrite ?Hurl; try congruence; members; tauto.
Qed.

(** X12. The version file is written only by a complete installation,
    and with the tag that was installed: a write of it is among the
    effects exactly when [prepareUblock] returns nil on a run that did
    not stop at the installed version, and then it comes after the
    archive is unpacked and is the last thing done before the archive
    is removed. *)
Theorem version_file_records_the_installed_tag Join dataDir ublockDir i :
  (∀ path content,
     WriteFile path content ∈ (prepareUblock Join dataDir ublockDir i).2
     ↔ path = Join dataDir "current_ublock_version"
       ∧ content = latestTag i
       ∧ (prepareUblock Join dataDir ublockDir i).1 = None
       ∧ up_to_date i = false)
  ∧ (∀ path content,
       WriteFile path content ∈ (prepareUblock Join dataDir ublockDir i).2
       ↔ path = Join dataDir "current_ublock_version"
         ∧ content = latestTag i
         ∧ Extract (Join dataDir "uBlock.zip") ublockDir
           ∈ (prepareUblock Join dataDir ublockDir i).2
         ∧ Unzip i = None)
  ∧ ((prepareUblock Join dataDir ublockDir i).1 = None →
     up_to_date i = false →
     ∃ before,
       (prepareUblock Join dataDir ublockDir i).2
       = (before
          ++ [ Extract (Join dataDir "uBlock.zip") ublockDir;
               WriteFile (Join dataDir "current_ublock_version") (latestTag i);
               RemoveFile (Join dataDir "uBlock.zip") ])%list).
Proof.
  split; [|split].
  - intros path content. prepare_cases i; members; naive_solver.
  - intros path content. prepare_cases i; members; naive_solver.
  - prepare_cases i; try done; intros _ _.
    + by exists [ ReadFile (Join dataDir "current_ublock_version");
                  HttpGet UblockGithubAPIURL; StatPath ublockDir;
                  MkdirAll dataDir; HttpGet (downloadURL i);
                  CreateFile (Join dataDir "uBlock.zip");
                  CopyBody (Join dataDir "uBlock.zip");
                  RemoveAll ublockDir; MkdirAll ublockDir ].
    + by exists [ ReadFile (Join dataDir "current_ublock_version");
                  HttpGet UblockGithubAPIURL;
                  MkdirAll dataDir; HttpGet (downloadURL i);
                  CreateFile (Join dataDir "uBlock.zip");
                  CopyBody (Join dataDir "uBlock.zip");
                  RemoveAll ublockDir; MkdirAll ublockDir ].
Qed.

(** X13. The old extension directory is deleted, and the downloaded
    archive removed again, exactly when the archive was copied to disk
    in full; a copy that breaks off is returned as the error and leaves
    the partial archive where it is. *)
Theorem archive_is_removed_only_when_whole Join dataDir ublockDir i :
  (∀ path,
     RemoveFile path ∈ (prepareUblock Join dataDir ublockDir i).2
     ↔ path = Join dataDir "uBlock.zip"
       ∧ CopyBody (Join dataDir "uBlock.zip")
         ∈ (prepareUblock Join dataDir ublockDir i).2
       ∧ Copy i = None)
  ∧ (∀ path,
       RemoveAll path ∈ (prepareUblock Join dataDir ublockDir i).2
       ↔ path = ublockDir
         ∧ CopyBody (Join dataDir "uBlock.zip")
           ∈ (prepareUblock Join dataDir ublockDir i).2
         ∧ Copy i = None)
  ∧ (∀ err,
       CopyBody (Join dataDir "uBlock.zip")
       ∈ (prepareUblock Join dataDir ublockDir i).2 →
       Copy i = Some err →
       (prepareUblock Join dataDir ublockDir i).1 = Some err).
Proof.
  split; [|split]; intros x; prepare_cases i; members; naive_solver.
Qed.

Example offline_install_effects :
  prepareUblock slash "data" "data/uBlock" offline_install
  = (None,
     [ ReadFile "data/current_ublock_version"; HttpGet UblockGithubAPIURL;
       MkdirAll "data"; HttpGet UblockFallbackDownloadURL;
       CreateFile "data/uBlock.zip"; CopyBody "data/uBlock.zip";
       RemoveAll "data/uBlock"; MkdirAll "data/uBlock";
       Extract "data/uBlock.zip" "data/uBlock";
       WriteFile "data/current_ublock_version" "fallback";
       RemoveFile "data/uBlock.zip" ]).
Proof. reflexivity. Qed.

Example broken_copy_effects :
  prepareUblock slash "data" "data/uBlock" broken_copy
  = (Some "unexpected EOF",
     [ ReadFile "data/current_ublock_version"; HttpGet UblockGithubAPIURL;
       MkdirAll "data"; HttpGet "https://example.org/chromium.zip";
       CreateFile "data/uBlock.zip"; CopyBody "data/uBlock.zip" ]).
Proof. reflexivity. Qed.

Example current_install_effects :
  prepareUblock slash "data" "data/uBlock" current_install
  = (None,
     [ ReadFile "data/current_ublock_version"; HttpGet UblockGithubAPIURL;
       StatPath "data/uBlock" ]).
Proof. reflexivity. Qed.

Lemma classic_unpacks f : unpacks f ∨ ¬ unpacks f.
Proof.
  unfold unpacks.
  destruct (zip_IsDir f); [by left; left|].
  destruct (MkdirAll_parent f), (OpenFile f), (Open f), (CopyEntry f);
    try (right; intros [?|(? & ? & ? & ?)]; done).
  left. by right.
Qed.

Lemma unzip_files_unpacks Join Dir dest f rest :
  unpacks f →
  unzip_files Join Dir dest (f :: rest)
  = ((unzip_files Join Dir dest rest).1,
     ((if zip_IsDir f then [MakeDir (Join dest (zip_Name f))]
       else [ MakeDir (Dir (Join dest (zip_Name f)));
              Truncate (Join dest (zip_Name f));
              Fill (Join dest (zip_Name f)) ])
      ++ (unzip_files Join Dir dest rest).2)%list).
Proof.
  intros Hok. cbn [unzip_files].
  destruct (zip_IsDir f) eqn:Hdir.
  - by destruct (unzip_files Join Dir dest rest).
  - destruct Hok as [|(-> & -> & -> & ->)]; [congruence|].
    by destruct (unzip_files Join Dir dest rest).
Qed.

Lemma unzip_files_fails Join Dir dest f rest rest' :
  ¬ unpacks f →
  unzip_files Join Dir dest (f :: rest) = unzip_files Join Dir dest (f :: rest')
  ∧ (unzip_files Join Dir dest (f :: rest)).1 ≠ None.
Proof.
  intros Hbad. cbn [unzip_files]. unfold unpacks in Hbad.
  destruct (zip_IsDir f); [by destruct Hbad; left|].
  destruct (MkdirAll_parent f); [done|].
  destruct (OpenFile f); [done|].
  destruct (Open f); [done|].
  destruct (CopyEntry f); [done|].
  destruct Hbad. by right.
Qed.

(** X14. [unzip] unpacks the entries in the order of the archive and
    stops at the first one for which a call fails: it returns nil
    exactly when every entry unpacks, having then made every folder and
    filled every file; and after an entry that fails nothing later in
    the archive is touched, while what was unpacked before it stays. *)
Theorem unzip_stops_at_the_first_failure Join Dir dest entries :
  ((unzip_files Join Dir dest entries).1 = None ↔ Forall unpacks entries)
  ∧ ((unzip_files Join Dir dest entries).1 = None →
     ∀ f, f ∈ entries →
          (if zip_IsDir f then MakeDir (Join dest (zip_Name f))
           else Fill (Join dest (zip_Name f)))
          ∈ (unzip_files Join Dir dest entries).2)
  ∧ (∀ before f after,
       entries = (before ++ f :: after)%list →
       Forall unpacks before → ¬ unpacks f →
       unzip_files Join Dir dest entries
       = unzip_files Join Dir dest (before ++ [f])
       ∧ (unzip_files Join Dir dest entries).1 ≠ None).
Proof.
  assert (Hall : ∀ l, (unzip_files Join Dir dest l).1 = None
                      ↔ Forall unpacks l).
  { induction l as [|f rest IH]; [by split|].
    destruct (classic_unpacks f) as [Hok|Hbad].
    - rewrite (unzip_files_unpacks _ _ _ _ _ Hok). simpl. rewrite IH.
      split; [by constructor|]. by intros [_ ?]%Forall_cons.
    - destruct (unzip_files_fails Join Dir dest f rest rest Hbad) as [_ Hne].
      split; [done|]. by intros [? _]%Forall_cons. }
  split; [apply Hall|]. split.
  - intros Hnil%Hall f Hf. clear Hall.
    induction Hnil as [|g rest Hg Hrest IH]; [by apply elem_of_nil in Hf|].
    rewrite (unzip_files_unpacks _ _ _ _ _ Hg). cbn [snd].
    apply elem_of_cons in Hf as [->|Hf].
    + apply elem_of_app. left. destruct (zip_IsDir g); members; tauto.
    + apply elem_of_app. right. by apply IH.
  - intros before f after -> Hbefore Hbad. clear Hall.
    induction Hbefore as [|g before Hg _ IH]; simpl app.
    + apply (unzip_files_fails Join Dir dest f after [] Hbad).
    + rewrite !(unzip_files_unpacks _ _ _ _ _ Hg). cbn [fst].
      destruct IH as [-> Hne]. split; [done|].
      by destruct (unzip_files_fails Join Dir dest f [] [] Hbad) as [_ ?].
Qed.

Example sample_archive_unpacked :
  unzip slash (λ p, p) (inr sample_archive) "data/uBlock"
  = (Some "permission denied",
     [ MakeDir "data/uBlock/uBOLite.chromium/";
       MakeDir "data/uBlock/uBOLite.chromium/manifest.json";
       Truncate "data/uBlock/uBOLite.chromium/manifest.json";
       Fill "data/uBlock/uBOLite.chromium/manifest.json";
       MakeDir "data/uBlock/uBOLite.chromium/js/background.js";
       Truncate "data/uBlock/uBOLite.chromium/js/background.js" ]).
Proof. reflexivity. Qed.

Lemma Get_options Join dataDir fs run headless debug :
  options (Get Join dataDir fs run headless debug)
  = ([NoDefaultBrowserCheck; NoFirstRun; DisableGPU]
     ++ (if headless then [Headless] else [])
     ++ [ Flag "disable-dev-shm-usage" On;
          Flag "disable-blink-features" (Text "AutomationControlled");
          UserAgent "Mozilla/5.0 (Windows NT 10.0; Win64; x64) AppleWebKit/537.36 (KHTML, like Gecko) Chrome/121.0.0.0 Safari/537.36";
          WindowSize 1920 1080;
          Flag "disable-infobars" On;
          Flag "exclude-switches" (Text "enable-automation,enable-logging") ]
     ++ match getUblockDirectory Join fs (Join dataDir "uBlock") with
        | inl path => [Flag "load-extension" (Text path)]
        | inr _ => []
        end)%list.
Proof.
  unfold Get.
  by destruct (getUblockDirectory Join fs (Join dataDir "uBlock")),
              run, headless.
Qed.

(** X15. [Get] fails exactly when [chromedp.Run] does, wrapping its
    error, and then it has run both cancel functions; whatever happened
    to uBlock does not enter. The browser is headless exactly when
    asked, loads the extension exactly when [getUblockDirectory] finds
    its directory, from that directory, and is never started with the
    no-sandbox flag. *)
Theorem Get_fails_only_with_the_browser Join dataDir fs run headless debug :
  (failure (Get Join dataDir fs run headless debug) = None ↔ run = None)
  ∧ (∀ err, run = Some err →
            failure (Get Join dataDir fs run headless debug)
            = Some ("browser failed to start or patches failed: " +:+ err))
  ∧ (cancelled (Get Join dataDir fs run headless debug) = true
     ↔ run ≠ None)
  ∧ (Headless ∈ options (Get Join dataDir fs run headless debug)
     ↔ headless = true)
  ∧ (∀ value,
       Flag "load-extension" value
       ∈ options (Get Join dataDir fs run headless debug)
       ↔ ∃ path, getUblockDirectory Join fs (Join dataDir "uBlock") = inl path
                 ∧ value = Text path)
  ∧ (∀ value,
       Flag "no-sandbox" value
       ∉ options (Get Join dataDir fs run headless debug)).
Proof.
  rewrite Get_options.
  split; [by destruct run|]. split; [by intros err ->|].
  split; [by destruct run|]. split; [|split].
  - destruct (getUblockDirectory Join fs (Join dataDir "uBlock"))
      as [path|err]; destruct headless;
      members; split; try done; try tauto;
      intros H; decompose [or] H; try contradiction; simplify_eq.
  - intros value.
    destruct (getUblockDirectory Join fs (Join dataDir "uBlock"))
      as [path|err]; destruct headless;
      members; (split;
      [ intros H; decompose [or] H; try contradiction; simplify_eq; eauto
      | intros (p & Hp & ->); simplify_eq; tauto ]).
  - intros value.
    destruct (getUblockDirectory Join fs (Join dataDir "uBlock"))
      as [path|err]; destruct headless;
      members; intros H; decompose [or] H; try contradiction; simplify_eq.
Qed.

End ChromeFacts.

(** ** The logger's threshold *)

Module LoggerFacts.
Import Logger.

(** X16. The default logger lets a record through exactly from its
    threshold up: [LevelInfo] without the debug flag, [LevelDebug] with
    it. So warnings and errors are always written, and records at
    [LevelTrace] never are, with or without the flag; [WithAttrs] and
    [WithGroup] change nothing of this. *)
Theorem default_logger_never_enables_trace debug :
  (∀ level,
     Enabled (InitDefaultLogger debug) level = true
     ↔ ((if debug then LevelDebug else LevelInfo) ≤ level)%Z)
  ∧ Enabled (InitDefaultLogger debug) LevelTrace = false
  ∧ (∀ level, (LevelWarn ≤ level)%Z →
              Enabled (InitDefaultLogger debug) level = true)
  ∧ (∀ attrs name level,
       Enabled (WithGroup (WithAttrs (InitDefaultLogger debug) attrs) name)
               level
       = Enabled (InitDefaultLogger debug) level).
Proof.
  unfold Enabled, InitDefaultLogger, NewCustomHandler, WithGroup, WithAttrs,
    LevelTrace, LevelWarn, LevelDebug, LevelInfo.
  cbn [opts_Level]. split; [|split; [|split]].
  - intros level. apply Z.leb_le.
  - by destruct debug.
  - intros level Hle. apply Z.leb_le. destruct debug; lia.
  - done.
Qed.

End LoggerFacts.

(** ** Removing files that may be gone *)

Module UtilsFacts.
Import Os Utils.

Section Contract.

Variable Remove : gmap string Node → string → gmap string Node * option Errno.

(** What is asked of [os.Remove]: success leaves the file system
    without the path and otherwise as it was, failure leaves it as it
    was, and the "does not exist" error is returned only for a path
    that is not there. *)
Hypothesis Remove_done : ∀ fs path fs',
  Remove fs path = (fs', None) → fs' = delete path fs.
Hypothesis Remove_failed : ∀ fs path fs' e,
  Remove fs path = (fs', Some e) →
  fs' = fs ∧ (IsNotExist e = true → fs !! path = None).

Lemma ignore_not_exists_spec fs path :
  ((RemoveFileIgnoreNotExists Remove fs path).2 = None →
   (RemoveFileIgnoreNotExists Remove fs path).1 = delete path fs)
  ∧ (∀ e, (RemoveFileIgnoreNotExists Remove fs path).2 = Some e →
          IsNotExist e = false
          ∧ (RemoveFileIgnoreNotExists Remove fs path).1 = fs).
Proof.
  unfold RemoveFileIgnoreNotExists.
  destruct (Remove fs path) as [fs' [e|]] eqn:Hrm.
  - destruct (Remove_failed _ _ _ _ Hrm) as [-> Hgone].
    destruct (IsNotExist e) eqn:He; simpl.
    + split; [|done]. intros _. symmetry. apply delete_id. by apply Hgone.
    + split; [done|]. by intros e' [= <-].
  - simpl. split; [|done]. intros _. by eapply Remove_done.
Qed.

End Contract.

(** X17. [RemoveFileIgnoreNotExists], over an [os.Remove] that removes
    the path or fails without touching anything and reports "does not
    exist" only of a missing path: a nil result means the path is gone
    and every other path is as before; an error returned is never
    "does not exist" and nothing has changed; and after a nil result a
    second call returns nil again and changes nothing. *)
Theorem RemoveFileIgnoreNotExists_is_idempotent Remove fs path :
  (∀ fs path fs', Remove fs path = (fs', None) → fs' = delete path fs) →
  (∀ fs path fs' e, Remove fs path = (fs', Some e) →
                    fs' = fs ∧ (IsNotExist e = true → fs !! path = None)) →
  (∀ fs path, fs !! path = None → (Remove fs path).2 = Some ENOENT) →
  ((RemoveFileIgnoreNotExists Remove fs path).2 = None →
   (RemoveFileIgnoreNotExists Remove fs path).1 = delete path fs
   ∧ RemoveFileIgnoreNotExists Remove
       (RemoveFileIgnoreNotExists Remove fs path).1 path
     = ((RemoveFileIgnoreNotExists Remove fs path).1, None))
  ∧ (∀ e, (RemoveFileIgnoreNotExists Remove fs path).2 = Some e →
          IsNotExist e = false
          ∧ (RemoveFileIgnoreNotExists Remove fs path).1 = fs
          ∧ is_Some (fs !! path))
  ∧ (fs !! path = None →
     RemoveFileIgnoreNotExists Remove fs path = (fs, None)).
Proof.
  intros Hdone Hfailed Habsent.
  assert (Hmissing : ∀ fs0 p, fs0 !! p = None →
            RemoveFileIgnoreNotExists Remove fs0 p = (fs0, None)).
  { intros fs0 p Hp. specialize (Habsent fs0 p Hp).
    unfold RemoveFileIgnoreNotExists.
    destruct (Remove fs0 p) as [fs' [e|]] eqn:Hrm; simpl in Habsent; [|done].
    injection Habsent as ->. simpl.
    by destruct (Hfailed _ _ _ _ Hrm) as [-> _]. }
  destruct (ignore_not_exists_spec Remove Hdone Hfailed fs path)
    as [Hnil Herr].
  split; [|split].
  - intros Hres. specialize (Hnil Hres). split; [done|].
    rewrite Hnil. apply Hmissing, lookup_delete_eq.
  - intros e He. destruct (Herr e He) as [Hne Hfs]. split; [done|].
    split; [done|].
    destruct (fs !! path) eqn:Hp; [by eexists|].
    rewrite (Hmissing fs path Hp) in He. done.
  - apply Hmissing.
Qed.

Lemma unlink_done fs path fs' :
  unlink fs path = (fs', None) → fs' = delete path fs.
Proof. unfold unlink. destruct (fs !! path); by intros [= <-]. Qed.

Lemma unlink_failed fs path fs' e :
  unlink fs path = (fs', Some e) →
  fs' = fs ∧ (IsNotExist e = true → fs !! path = None).
Proof.
  unfold unlink. destruct (fs !! path) eqn:Hp; [done|].
  by intros [= <- <-].
Qed.

Lemma unlink_absent fs path :
  fs !! path = None → (unlink fs path).2 = Some ENOENT.
Proof. unfold unlink. by intros ->. Qed.

Lemma RemoveFileIgnoreNotExists_is_idempotent_witness :
  RemoveFileIgnoreNotExists unlink DirCache.sample_fs "downloads/gone.mp4"
  = (DirCache.sample_fs, None).
Proof.
  apply (RemoveFileIgnoreNotExists_is_idempotent
           unlink DirCache.sample_fs "downloads/gone.mp4"
           unlink_done unlink_failed unlink_absent).
  reflexivity.
Defined.

Example unlink_twice :
  RemoveFileIgnoreNotExists unlink DirCache.sample_fs "notes.txt"
  = (delete "notes.txt" DirCache.sample_fs, None)
  ∧ RemoveFileIgnoreNotExists unlink
      (delete "notes.txt" DirCache.sample_fs) "notes.txt"
    = (delete "notes.txt" DirCache.sample_fs, None).
Proof. split; reflexivity. Qed.

End UtilsFacts.
